(** * mp++ [complex]: ownership, precision propagation and generic dispatch

    A shallow embedding of [include/mp++/complex.hpp].  The header layers a
    composite (real part, imaginary part) value on top of two MPFR numbers
    stored side by side in an [mpc_struct_t].  What is modelled here is the
    layer the header itself implements: construction, move semantics, the
    scoped views [re_ref]/[im_ref]/[re_cref]/[im_cref], generic assignment
    and setters, precision checks, and the equality dispatch.

    Conventions.
    - C++ member functions that mutate [*this] are state-passing functions
      [complex -> ... * complex]; a function that may throw returns a
      [result], and a mutator that may throw returns the outcome together
      with the state the object is left in.
    - A pointer to limbs ([_mpfr_d]) is an [option]: [None] is [nullptr].
      The limb block is owned by exactly one live object outside the scope
      of a view, so the block is stored in place of its address.
    - A template parameter constrained to an interoperable type set
      becomes a type with a type-class instance; overloads selected by
      [std::true_type]/[std::false_type] become separate definitions. *)

From Stdlib Require Import ZArith NArith String List Bool Lia DecimalString.
Import ListNotations.
Local Open Scope Z_scope.

(** ** Exceptions *)

(** The only exception the header throws is [std::invalid_argument]. *)
Inductive exception : Type :=
| invalid_argument (what : string).

Definition result (A : Type) : Type := (exception + A)%type.

Definition ret {A : Type} (a : A) : result A := inr a.

Definition throw {A : Type} (e : exception) : result A := inl e.

Definition bind {A B : Type} (m : result A) (k : A -> result B) : result B :=
  match m with
  | inl e => inl e
  | inr a => k a
  end.

Notation "x <- m ;; k" := (bind m (fun x => k))
  (at level 61, m at next level, right associativity).

(** [s] occurs in [msg]. *)
Definition carries (msg s : string) : Prop :=
  exists pre post : string, msg = (pre ++ s ++ post)%string.

(** ** The MPFR and MPC representation

    The external libraries the header is written against: the structs
    [mpfr_struct_t] and [mpc_struct_t] with the field names the header
    uses, and the primitives it calls ([mpfr_get_prec], [mpfr_zero_p],
    [mpfr_set_zero], [mpfr_prec_round], [mpc_set_prec], [mpc_realref],
    [mpc_imagref]), with the behaviour their manuals document.  The
    exponent range is not bounded here. *)

Definition mpfr_prec_t : Type := Z.
Definition mpfr_sign_t : Type := Z.

(** The exponent field; MPFR encodes zero, NaN and infinity as reserved
    exponent values. *)
Inductive mpfr_exp_t : Type :=
| MPFR_EXP_ZERO
| MPFR_EXP_NAN
| MPFR_EXP_INF
| MPFR_EXP (e : Z).

(** The significand held in a limb block, read as an integer of
    [_mpfr_prec] bits. *)
Definition mp_limbs : Type := N.

Record mpfr_struct_t : Type := {
  _mpfr_prec : mpfr_prec_t;
  _mpfr_sign : mpfr_sign_t;
  _mpfr_exp : mpfr_exp_t;
  _mpfr_d : option mp_limbs
}.

Definition nullptr : option mp_limbs := None.

(** [x->_mpfr_d = p] *)
Definition set_mpfr_d (x : mpfr_struct_t) (p : option mp_limbs) : mpfr_struct_t :=
  {| _mpfr_prec := _mpfr_prec x;
     _mpfr_sign := _mpfr_sign x;
     _mpfr_exp := _mpfr_exp x;
     _mpfr_d := p |}.

Record mpc_struct_t : Type := {
  re : mpfr_struct_t;
  im : mpfr_struct_t
}.

Definition mpc_realref (z : mpc_struct_t) : mpfr_struct_t := re z.
Definition mpc_imagref (z : mpc_struct_t) : mpfr_struct_t := im z.

(** [mpc_realref(z)[0] = x] and [mpc_imagref(z)[0] = x]: struct assignment
    into one slot. *)
Definition set_realref (z : mpc_struct_t) (x : mpfr_struct_t) : mpc_struct_t :=
  {| re := x; im := im z |}.
Definition set_imagref (z : mpc_struct_t) (x : mpfr_struct_t) : mpc_struct_t :=
  {| re := re z; im := x |}.

(** The numeric content of an MPFR number: everything but its precision. *)
Record mpfr_value : Type := {
  v_sign : mpfr_sign_t;
  v_exp : mpfr_exp_t;
  v_limbs : mp_limbs
}.

(** Store a value into [x], whose precision is kept (the effect of the
    [mpfr_set_*] family once the value has been rounded to [x]'s
    precision). *)
Definition mpfr_store (x : mpfr_struct_t) (v : mpfr_value) : mpfr_struct_t :=
  {| _mpfr_prec := _mpfr_prec x;
     _mpfr_sign := v_sign v;
     _mpfr_exp := v_exp v;
     _mpfr_d := Some (v_limbs v) |}.

(** [mpfr_init2(x, p)] followed by a store. *)
Definition mpfr_init_set (p : mpfr_prec_t) (v : mpfr_value) : mpfr_struct_t :=
  {| _mpfr_prec := p;
     _mpfr_sign := v_sign v;
     _mpfr_exp := v_exp v;
     _mpfr_d := Some (v_limbs v) |}.

Definition mpfr_get_prec (x : mpfr_struct_t) : mpfr_prec_t := _mpfr_prec x.

(** Nonzero iff [x] is a zero of either sign. *)
Definition mpfr_zero_p (x : mpfr_struct_t) : Z :=
  match _mpfr_exp x with
  | MPFR_EXP_ZERO => 1
  | _ => 0
  end.

Definition value_zero (sign : Z) : mpfr_value :=
  {| v_sign := if sign <? 0 then -1 else 1; v_exp := MPFR_EXP_ZERO; v_limbs := 0%N |}.

Definition value_nan : mpfr_value :=
  {| v_sign := 1; v_exp := MPFR_EXP_NAN; v_limbs := 0%N |}.

Definition value_inf (sign : Z) : mpfr_value :=
  {| v_sign := if sign <? 0 then -1 else 1; v_exp := MPFR_EXP_INF; v_limbs := 0%N |}.

(** [mpfr_set_zero(x, sign)]: [x] becomes +0 when [sign >= 0], -0
    otherwise; the precision and the limb block are untouched. *)
Definition mpfr_set_zero (x : mpfr_struct_t) (sign : Z) : mpfr_struct_t :=
  {| _mpfr_prec := _mpfr_prec x;
     _mpfr_sign := if sign <? 0 then -1 else 1;
     _mpfr_exp := MPFR_EXP_ZERO;
     _mpfr_d := _mpfr_d x |}.

(** [mpfr_set_prec(x, p)]: the precision becomes exactly [p], the limb
    block is reallocated and the value is lost (NaN). *)
Definition mpfr_set_prec (x : mpfr_struct_t) (p : mpfr_prec_t) : mpfr_struct_t :=
  {| _mpfr_prec := p;
     _mpfr_sign := _mpfr_sign x;
     _mpfr_exp := MPFR_EXP_NAN;
     _mpfr_d := Some 0%N |}.

(** Round the positive integer [m], scaled by [2^e], to a significand of
    exactly [p] bits, to nearest with ties to the even significand. *)
Definition round_nearest_even (m : N) (e : Z) (p : Z) : N * Z :=
  let k := Z.of_N (N.size m) in
  if k <=? p then (N.shiftl m (Z.to_N (p - k)), e - (p - k))
  else
    let sh := Z.to_N (k - p) in
    let q := N.shiftr m sh in
    let r := N.land m (N.ones sh) in
    let half := N.shiftl 1 (sh - 1) in
    let q' := if (half <? r)%N || ((r =? half)%N && N.odd q) then (q + 1)%N else q in
    if (q' =? N.shiftl 1 (Z.to_N p))%N
    then (N.shiftl 1 (Z.to_N (p - 1)), e + Z.of_N sh + 1)
    else (q', e + Z.of_N sh).

(** The value [(-1)^neg * m * 2^e] rounded to [p] bits.  MPFR keeps the
    exponent of a regular number so that the significand lies in
    [[1/2, 1)]. *)
Definition value_of_scaled (neg : bool) (m : N) (e : Z) (p : mpfr_prec_t) : mpfr_value :=
  if (m =? 0)%N then value_zero (if neg then -1 else 1)
  else
    let '(m', e') := round_nearest_even m e p in
    {| v_sign := if neg then -1 else 1; v_exp := MPFR_EXP (e' + p); v_limbs := m' |}.

(** The content of [x] rounded to [p] bits ([MPFR_RNDN]). *)
Definition mpfr_round (x : mpfr_struct_t) (p : mpfr_prec_t) : mpfr_value :=
  match _mpfr_exp x, _mpfr_d x with
  | MPFR_EXP e, Some m =>
      value_of_scaled (_mpfr_sign x <? 0) m (e - _mpfr_prec x) p
  | ex, d =>
      {| v_sign := _mpfr_sign x; v_exp := ex;
         v_limbs := match d with Some m => m | None => 0%N end |}
  end.

(** [mpfr_prec_round(x, p, MPFR_RNDN)]: the precision becomes [p] and the
    value is rounded to it. *)
Definition mpfr_prec_round (x : mpfr_struct_t) (p : mpfr_prec_t) : mpfr_struct_t :=
  mpfr_init_set p (mpfr_round x p).

(** [mpc_set_prec(z, p)]: both parts get precision [p]; the value is
    lost. *)
Definition mpc_set_prec (z : mpc_struct_t) (p : mpfr_prec_t) : mpc_struct_t :=
  {| re := mpfr_set_prec (re z) p; im := mpfr_set_prec (im z) p |}.

(** Exact reading of a number, for comparisons: NaN, an infinity, or
    [n * 2^e]. *)
Inductive exact : Type :=
| ex_nan
| ex_inf (neg : bool)
| ex_fin (n : Z) (e : Z).

Definition exact_of_mpfr (x : mpfr_struct_t) : exact :=
  match _mpfr_exp x with
  | MPFR_EXP_NAN => ex_nan
  | MPFR_EXP_INF => ex_inf (_mpfr_sign x <? 0)
  | MPFR_EXP_ZERO => ex_fin 0 0
  | MPFR_EXP e =>
      match _mpfr_d x with
      | Some m => ex_fin (_mpfr_sign x * Z.of_N m) (e - _mpfr_prec x)
      | None => ex_nan
      end
  end.

Definition exact_eqb (a b : exact) : bool :=
  match a, b with
  | ex_inf s, ex_inf t => Bool.eqb s t
  | ex_fin n e, ex_fin n' e' =>
      let lo := Z.min e e' in
      n * 2 ^ (e - lo) =? n' * 2 ^ (e' - lo)
  | _, _ => false
  end.

(** ** [mppp::real]

    The arbitrary-precision real is a thin owner of one [mpfr_struct_t]. *)
Record real : Type := { m_mpfr : mpfr_struct_t }.

(** [real(shallow_copy_t, const mpfr_t)]: a struct copy, sharing the limb
    block of its argument. *)
Definition real_shallow_copy (x : mpfr_struct_t) : real := {| m_mpfr := x |}.

(** [r._get_mpfr_t()->_mpfr_d = nullptr]: deactivate [r], so that its
    destructor releases nothing. *)
Definition real_deactivate (r : real) : real :=
  {| m_mpfr := set_mpfr_d (m_mpfr r) nullptr |}.

Definition real_get_prec (r : real) : mpfr_prec_t := mpfr_get_prec (m_mpfr r).

Definition real_is_valid (r : real) : bool :=
  match _mpfr_d (m_mpfr r) with
  | Some _ => true
  | None => false
  end.

(** ** The numeric-kind trait layer *)

(** Modelled from the spec: what [real.hpp], whose text is not among
    the sources, offers for a type [T] of the real-valued interoperable
    set (the built-in arithmetic types, [integer], [rational], [real],
    [real128]): [detail::real_deduce_precision] (section 4.1, the natural
    precision of a value), the conversion of a value of [T] to a given
    precision that [real]'s constructors, assignment and setter share, and
    the comparison [real == T] (section 6).  An instance is a type [T]
    with [is_rv_complex_interoperable<T>::value] true. *)
Class rv_complex_interoperable (T : Type) : Type := {
  real_deduce_precision : T -> mpfr_prec_t;
  rv_value : T -> mpfr_prec_t -> mpfr_value;
  real_eq : real -> T -> bool
}.

(** Modelled from the spec: the types [real{x, p}] accepts with an
    explicit precision (section 4.2: the real-valued interoperable types
    and, with an explicit precision only, the string types).  Reading a
    string may fail with [invalid_argument]. *)
Class real_prec_constructible (T : Type) : Type := {
  init_value : T -> mpfr_prec_t -> result mpfr_value
}.

#[export] Instance rv_prec_constructible (T : Type) `{rv_complex_interoperable T} :
  real_prec_constructible T :=
  {| init_value := fun x p => ret (rv_value x p) |}.

(** [is_cpp_complex<T>] (and [complex128]): [std::complex] over a
    floating-point type, with its [real()] and [imag()] accessors. *)
Class cv_complex_interoperable (T : Type) : Type := {
  value_type : Type;
  value_type_rv :: rv_complex_interoperable value_type;
  c_real : T -> value_type;
  c_imag : T -> value_type
}.

(** [is_complex_interoperable<T>] is the disjunction of the two sets; the
    tag [is_rv_complex_interoperable<T>{}] the header dispatches on says
    which of them [T] belongs to.  It is a property of the type alone. *)
Inductive interoperable_tag (T : Type) : Type :=
| true_type (rv : rv_complex_interoperable T)
| false_type (cv : cv_complex_interoperable T).

Arguments true_type {T} rv.
Arguments false_type {T} cv.

Class complex_interoperable (T : Type) : Type :=
  is_rv_complex_interoperable : interoperable_tag T.

(** [is_string_type<T>]: the character sequences [real] can be read from. *)
Inductive string_type : Type :=
| c_string (s : string)
| std_string (s : string)
| std_string_view (s : string).

(** ** Some interoperable types *)

(** C++ [int], 32 bits wide: 31 value digits and the sign. *)
Record cpp_int : Type := Int { int_value : Z }.

Definition exact_of_int (x : cpp_int) : exact := ex_fin (int_value x) 0.

#[export] Instance int_rv : rv_complex_interoperable cpp_int :=
  {| real_deduce_precision := fun _ => 32;
     rv_value := fun x p =>
       value_of_scaled (int_value x <? 0) (Z.to_N (Z.abs (int_value x))) 0 p;
     real_eq := fun r x => exact_eqb (exact_of_mpfr (m_mpfr r)) (exact_of_int x) |}.

#[export] Instance int_interoperable : complex_interoperable cpp_int :=
  true_type int_rv.

(** C++ [double] (IEEE binary64): 53 significand bits. *)
Inductive cpp_double : Type :=
| dbl_nan
| dbl_inf (neg : bool)
| dbl_zero (neg : bool)
| dbl_fin (neg : bool) (m : positive) (e : Z).

Definition exact_of_double (x : cpp_double) : exact :=
  match x with
  | dbl_nan => ex_nan
  | dbl_inf s => ex_inf s
  | dbl_zero _ => ex_fin 0 0
  | dbl_fin s m e => ex_fin (if s then - Z.pos m else Z.pos m) e
  end.

#[export] Instance double_rv : rv_complex_interoperable cpp_double :=
  {| real_deduce_precision := fun _ => 53;
     rv_value := fun x p =>
       match x with
       | dbl_nan => value_nan
       | dbl_inf s => value_inf (if s then -1 else 1)
       | dbl_zero s => value_zero (if s then -1 else 1)
       | dbl_fin s m e => value_of_scaled s (Npos m) e p
       end;
     real_eq := fun r x => exact_eqb (exact_of_mpfr (m_mpfr r)) (exact_of_double x) |}.

#[export] Instance double_interoperable : complex_interoperable cpp_double :=
  true_type double_rv.

(** A [double] that is a number, with a significand that fits its 53
    bits. *)
Definition double_wf (d : cpp_double) : Prop :=
  match d with
  | dbl_nan => False
  | dbl_inf _ => True
  | dbl_zero _ => True
  | dbl_fin _ m _ => Z.pos m < 2 ^ 53
  end.

(** [real] itself: its natural precision is its current precision. *)
#[export] Instance real_rv : rv_complex_interoperable real :=
  {| real_deduce_precision := real_get_prec;
     rv_value := fun x p => mpfr_round (m_mpfr x) p;
     real_eq := fun r x => exact_eqb (exact_of_mpfr (m_mpfr r)) (exact_of_mpfr (m_mpfr x)) |}.

#[export] Instance real_interoperable : complex_interoperable real :=
  true_type real_rv.

(** [std::complex<double>]. *)
Record std_complex_double : Type := StdComplex {
  std_real : cpp_double;
  std_imag : cpp_double
}.

#[export] Instance std_complex_cv : cv_complex_interoperable std_complex_double :=
  {| value_type := cpp_double;
     value_type_rv := double_rv;
     c_real := std_real;
     c_imag := std_imag |}.

#[export] Instance std_complex_interoperable : complex_interoperable std_complex_double :=
  false_type std_complex_cv.

(** Modelled from the spec: [detail::to_string] of [utils.hpp] at a
    precision, its decimal numeral (section 4.1: the error carries the
    offending value and the two bounds). *)
Definition to_string (p : mpfr_prec_t) : string :=
  NilZero.string_of_int (Z.to_int p).

(** Modelled from the spec: [detail::c_max] of [utils.hpp], the larger of
    two precisions (section 4.1). *)
Definition c_max (a b : mpfr_prec_t) : mpfr_prec_t := if a >? b then a else b.

(** ** The composite value and its views *)

(** [class complex]: the owner of one [mpc_struct_t]. *)
Record complex : Type := { m_mpc : mpc_struct_t }.

(** [enum class complex_prec_t : ::mpfr_prec_t {}]: a precision that only
    a [static_cast] turns back into an [mpfr_prec_t]. *)
Record complex_prec_t : Type := ComplexPrec { static_cast_prec : mpfr_prec_t }.

(** A view holds [m_value], a shallow copy of one part, and (the
    read-write ones) the reference [m_c] to the composite, which is the
    composite passed to the destructor here. *)
Module re_ref.

Record t : Type := { m_value : real }.

(** [explicit re_ref(complex &c)] *)
Definition ctor (c : complex) : t :=
  {| m_value := real_shallow_copy (mpc_realref (m_mpc c)) |}.

(** [~re_ref()]: write the struct back into the real slot, then
    deactivate the copy. *)
Definition dtor (v : t) (m_c : complex) : complex * t :=
  let m_c := {| m_mpc := set_realref (m_mpc m_c) (m_mpfr (m_value v)) |} in
  let v := {| m_value := real_deactivate (m_value v) |} in
  (m_c, v).

(** [operator*] and [operator->] hand out [m_value]. *)
Definition deref (v : t) : real := m_value v.

(** A write through [operator*] or [operator->]. *)
Definition assign (v : t) (r : real) : t := {| m_value := r |}.

End re_ref.

Module re_cref.

Record t : Type := { m_value : real }.

(** [explicit re_cref(const complex &c)] *)
Definition ctor (c : complex) : t :=
  {| m_value := real_shallow_copy (mpc_realref (m_mpc c)) |}.

(** [~re_cref()]: deactivate the copy; nothing is written back. *)
Definition dtor (v : t) : t :=
  {| m_value := real_deactivate (m_value v) |}.

Definition deref (v : t) : real := m_value v.

End re_cref.

Module im_ref.

Record t : Type := { m_value : real }.

(** [explicit im_ref(complex &c)] *)
Definition ctor (c : complex) : t :=
  {| m_value := real_shallow_copy (mpc_imagref (m_mpc c)) |}.

(** [~im_ref()]: write the struct back into the imaginary slot, then
    deactivate the copy. *)
Definition dtor (v : t) (m_c : complex) : complex * t :=
  let m_c := {| m_mpc := set_imagref (m_mpc m_c) (m_mpfr (m_value v)) |} in
  let v := {| m_value := real_deactivate (m_value v) |} in
  (m_c, v).

Definition deref (v : t) : real := m_value v.

Definition assign (v : t) (r : real) : t := {| m_value := r |}.

End im_ref.

Module im_cref.

Record t : Type := { m_value : real }.

(** [explicit im_cref(const complex &c)] *)
Definition ctor (c : complex) : t :=
  {| m_value := real_shallow_copy (mpc_imagref (m_mpc c)) |}.

(** [~im_cref()] *)
Definition dtor (v : t) : t :=
  {| m_value := real_deactivate (m_value v) |}.

Definition deref (v : t) : real := m_value v.

End im_cref.

(** [complex(complex &&other) noexcept]: returns the new object and the
    state [other] is left in. *)
Definition complex_move (other : complex) : complex * complex :=
  (* Shallow copy other. *)
  let this := {| m_mpc := m_mpc other |} in
  (* Mark the other as moved-from. *)
  let other :=
    {| m_mpc := set_realref (m_mpc other)
                  (set_mpfr_d (mpc_realref (m_mpc other)) nullptr) |} in
  (this, other).

(** [explicit complex(::mpc_t &&c) : m_mpc( *c )]: the composite takes
    over the representation [c] as it is. *)
Definition complex_mpc_move (c : mpc_struct_t) : complex := {| m_mpc := c |}.

(** [std::swap] on two [mpc_struct_t]. *)
Definition std_swap (a b : mpc_struct_t) : mpc_struct_t * mpc_struct_t := (b, a).

(** [complex &operator=(complex &&other) noexcept]: returns [*this] and
    the state [other] is left in. *)
Definition move_assign (this other : complex) : complex * complex :=
  let '(a, b) := std_swap (m_mpc this) (m_mpc other) in
  ({| m_mpc := a |}, {| m_mpc := b |}).

(** [mpc_swap(a, b)]: the two representations change places. *)
Definition mpc_swap (a b : mpc_struct_t) : mpc_struct_t * mpc_struct_t := (b, a).

(** [inline void swap(complex &a, complex &b) noexcept] *)
Definition swap (a b : complex) : complex * complex :=
  let '(x, y) := mpc_swap (m_mpc a) (m_mpc b) in
  ({| m_mpc := x |}, {| m_mpc := y |}).

(** [bool is_valid() const noexcept] *)
Definition is_valid (this : complex) : bool :=
  match _mpfr_d (mpc_realref (m_mpc this)) with
  | Some _ => true
  | None => false
  end.

(** [::mpfr_prec_t get_prec() const]: the [assert] that both parts have
    the same precision is kept; [None] is the failed assertion. *)
Definition get_prec (this : complex) : option mpfr_prec_t :=
  if mpfr_get_prec (mpc_realref (m_mpc this)) =? mpfr_get_prec (mpc_imagref (m_mpc this))
  then Some (mpfr_get_prec (mpc_realref (m_mpc this)))
  else None.

(** Invariant I1: both parts have the same precision. *)
Definition same_prec (c : complex) : Prop :=
  mpfr_get_prec (mpc_realref (m_mpc c)) = mpfr_get_prec (mpc_imagref (m_mpc c)).

(** The real and imaginary parts as [real] values, as a [re_cref] and an
    [im_cref] show them. *)
Definition real_part (c : complex) : real := re_cref.deref (re_cref.ctor c).
Definition imag_part (c : complex) : real := im_cref.deref (im_cref.ctor c).

(** ** Values used in the examples *)

(** The integer [x] held at precision [p]. *)
Definition mpfr_of_Z (p : mpfr_prec_t) (x : Z) : mpfr_struct_t :=
  mpfr_init_set p (rv_value (Int x) p).

(** The composite [(x, y)] with both parts at precision [p]. *)
Definition complex_of_Z (p : mpfr_prec_t) (x y : Z) : complex :=
  {| m_mpc := {| re := mpfr_of_Z p x; im := mpfr_of_Z p y |} |}.

(** Precision bounds for the examples. *)
Definition example_prec_min : mpfr_prec_t := 1.
Definition example_prec_max : mpfr_prec_t := 2 ^ 56.

(** ** Compile-time predicates: [detail/type_traits.hpp]

    A type is a base type with the cv-qualifiers of the type referred to
    and the kind of reference on top of it; a trait is a function from
    types to the [::value] it defines. *)
Module type_traits.

Inductive ref_kind : Type :=
| not_a_reference
| lvalue_reference
| rvalue_reference.

Inductive base_type : Type :=
| int128_t
| uint128_t
| real_class
| real128_class
| complex_class
| complex128_class
| other (id : nat).

Record cpp_type : Type := {
  base : base_type;
  is_const_qualified : bool;
  is_volatile_qualified : bool;
  ref : ref_kind
}.

(** The unqualified, non-reference type of a base. *)
Definition plain (b : base_type) : cpp_type :=
  {| base := b; is_const_qualified := false; is_volatile_qualified := false;
     ref := not_a_reference |}.

Definition base_eqb (a b : base_type) : bool :=
  match a, b with
  | int128_t, int128_t => true
  | uint128_t, uint128_t => true
  | real_class, real_class => true
  | real128_class, real128_class => true
  | complex_class, complex_class => true
  | complex128_class, complex128_class => true
  | other i, other j => Nat.eqb i j
  | _, _ => false
  end.

Definition ref_eqb (a b : ref_kind) : bool :=
  match a, b with
  | not_a_reference, not_a_reference => true
  | lvalue_reference, lvalue_reference => true
  | rvalue_reference, rvalue_reference => true
  | _, _ => false
  end.

(** [std::is_same<T, U>::value] *)
Definition is_same (t u : cpp_type) : bool :=
  base_eqb (base t) (base u)
  && Bool.eqb (is_const_qualified t) (is_const_qualified u)
  && Bool.eqb (is_volatile_qualified t) (is_volatile_qualified u)
  && ref_eqb (ref t) (ref u).

(** [std::is_const<T>::value], [std::is_volatile<T>::value]: a reference
    is never cv-qualified itself. *)
Definition is_const (t : cpp_type) : bool :=
  match ref t with
  | not_a_reference => is_const_qualified t
  | _ => false
  end.

Definition is_volatile (t : cpp_type) : bool :=
  match ref t with
  | not_a_reference => is_volatile_qualified t
  | _ => false
  end.

(** [std::is_rvalue_reference<T>::value] *)
Definition is_rvalue_reference (t : cpp_type) : bool :=
  match ref t with
  | rvalue_reference => true
  | _ => false
  end.

(** [std::conditional<B, T, F>::type] *)
Definition conditional {A : Type} (b : bool) (t f : A) : A := if b then t else f.

(** What a variadic trait inherits from: [std::true_type],
    [std::false_type], or one of its arguments. *)
Inductive inherits (X : Type) : Type :=
| std_true_type
| std_false_type
| argument (b : X).

Arguments std_true_type {X}.
Arguments std_false_type {X}.
Arguments argument {X} b.

Section Variadic.

(** The arguments of [conjunction] and [disjunction] are types with a
    static member [value]. *)
Context {X : Type} (value : X -> bool).

(** The [::value] of what is inherited. *)
Definition value_of (i : inherits X) : bool :=
  match i with
  | std_true_type => true
  | std_false_type => false
  | argument b => value b
  end.

(** [struct conjunction], the three templates of the C++11 fallback. *)
Fixpoint conjunction (bs : list X) : inherits X :=
  match bs with
  | [] => std_true_type
  | [b1] => argument b1
  | b1 :: bn => conditional (negb (Bool.eqb (value b1) false)) (conjunction bn) (argument b1)
  end.

(** [struct disjunction] *)
Fixpoint disjunction (bs : list X) : inherits X :=
  match bs with
  | [] => std_false_type
  | [b1] => argument b1
  | b1 :: bn => conditional (negb (Bool.eqb (value b1) false)) (argument b1) (disjunction bn)
  end.

End Variadic.

(** [struct negation : std::integral_constant<bool, !B::value>] *)
Definition negation (b : bool) : bool := negb b.

(** The traits below only read [::value], of arguments that are
    [std::integral_constant<bool, ...>] themselves. *)
Definition conjunction_v (bs : list bool) : bool := value_of id (conjunction id bs).
Definition disjunction_v (bs : list bool) : bool := value_of id (disjunction id bs).

(** [remove_cv_t<T>]: the top-level qualifiers go; a reference has none. *)
Definition remove_cv_t (t : cpp_type) : cpp_type :=
  match ref t with
  | not_a_reference =>
      {| base := base t; is_const_qualified := false; is_volatile_qualified := false;
         ref := not_a_reference |}
  | _ => t
  end.

(** [unref_t<T>] *)
Definition unref_t (t : cpp_type) : cpp_type :=
  {| base := base t; is_const_qualified := is_const_qualified t;
     is_volatile_qualified := is_volatile_qualified t; ref := not_a_reference |}.

(** [uncvref_t<T>] *)
Definition uncvref_t (t : cpp_type) : cpp_type := remove_cv_t (unref_t t).

(** [is_ncrvr<T>]: a non-const rvalue reference. *)
Definition is_ncrvr (t : cpp_type) : bool :=
  conjunction_v [is_rvalue_reference t; negation (is_const (unref_t t))].

Section Config.

(** [MPPP_HAVE_GCC_INT128] *)
Variable MPPP_HAVE_GCC_INT128 : bool.

(** The standard library's own traits. *)
Variables std_is_integral std_is_signed std_is_unsigned : cpp_type -> bool.
Variable std_make_unsigned : cpp_type -> cpp_type.

(** [struct is_integral] *)
Definition is_integral (t : cpp_type) : bool :=
  disjunction_v
    (std_is_integral t
     :: if MPPP_HAVE_GCC_INT128
        then [is_same (remove_cv_t t) (plain int128_t);
              is_same (remove_cv_t t) (plain uint128_t)]
        else []).

(** [struct is_signed] *)
Definition is_signed (t : cpp_type) : bool :=
  disjunction_v
    (std_is_signed t
     :: if MPPP_HAVE_GCC_INT128 then [is_same (remove_cv_t t) (plain int128_t)] else []).

(** [struct is_unsigned] *)
Definition is_unsigned (t : cpp_type) : bool :=
  disjunction_v
    (std_is_unsigned t
     :: if MPPP_HAVE_GCC_INT128 then [is_same (remove_cv_t t) (plain uint128_t)] else []).

(** [make_unsigned_impl<T>::type]: the partial specialisation for the
    128-bit types, when they exist, and the primary template otherwise. *)
Definition make_unsigned_t (t : cpp_type) : cpp_type :=
  if MPPP_HAVE_GCC_INT128
     && disjunction_v [is_same (remove_cv_t t) (plain uint128_t);
                       is_same (remove_cv_t t) (plain int128_t)]
  then
    let with_cv (c v : bool) : cpp_type :=
      {| base := uint128_t; is_const_qualified := c; is_volatile_qualified := v;
         ref := not_a_reference |} in
    let tmp_type := conditional (is_const t) (with_cv true false) (with_cv false false) in
    conditional (is_volatile t)
      (with_cv (is_const_qualified tmp_type) true) tmp_type
  else std_make_unsigned t.

End Config.

(** *** The 128-bit specialisations of the [numeric_limits] helpers *)

(** [__int128_t] arithmetic in a constant expression: a result that does
    not fit the type is no constant expression ([None]). *)
Definition int128 (z : Z) : option Z :=
  if (- 2 ^ 127 <=? z) && (z <? 2 ^ 127) then Some z else None.

Definition int128_shl (a : option Z) (n : Z) : option Z :=
  match a with
  | Some x => if (0 <=? x) && (0 <=? n) && (n <? 128) then int128 (x * 2 ^ n) else None
  | None => None
  end.

Definition int128_add (a : option Z) (b : Z) : option Z :=
  match a with
  | Some x => int128 (x + b)
  | None => None
  end.

Definition int128_sub (a : option Z) (b : Z) : option Z :=
  match a with
  | Some x => int128 (x - b)
  | None => None
  end.

Definition int128_neg (a : option Z) : option Z :=
  match a with
  | Some x => int128 (- x)
  | None => None
  end.

(** [nl_digits<__uint128_t>()], [nl_digits<__int128_t>()] *)
Definition nl_digits_uint128 : Z := 128.
Definition nl_digits_int128 : Z := 127.

(** [nl_max<__uint128_t>()]: [~__uint128_t(0)], the complement on 128
    bits. *)
Definition nl_max_uint128 : Z := Z.lxor 0 (Z.ones 128).

(** [nl_min<__uint128_t>()] *)
Definition nl_min_uint128 : Z := 0.

(** [nl_max<__int128_t>()]: [(((__int128_t(1) << 126) - 1) << 1) + 1] *)
Definition nl_max_int128 : option Z :=
  int128_add (int128_shl (int128_sub (int128_shl (int128 1) 126) 1) 1) 1.

(** [nl_min<__int128_t>()]: [-nl_max<__int128_t>() - 1] *)
Definition nl_min_int128 : option Z :=
  int128_sub (int128_neg nl_max_int128) 1.

End type_traits.

(** ** Compile-time predicates: [complex.hpp] *)
Module complex_traits.

Import type_traits.

Section Config.

(** [MPPP_WITH_QUADMATH] *)
Variable MPPP_WITH_QUADMATH : bool.

(** [is_cpp_arithmetic], [detail::is_integer], [detail::is_rational] and
    [is_cpp_complex], the predicates of the headers [complex.hpp]
    includes. *)
Variables is_cpp_arithmetic is_integer is_rational is_cpp_complex : cpp_type -> bool.

(** [is_rv_complex_interoperable<T>] *)
Definition is_rv_complex_interoperable (t : cpp_type) : bool :=
  disjunction_v
    ([is_cpp_arithmetic (uncvref_t t); is_integer (uncvref_t t);
      is_rational (uncvref_t t); is_same (uncvref_t t) (plain real_class)]
     ++ if MPPP_WITH_QUADMATH then [is_same (uncvref_t t) (plain real128_class)] else []).

(** [is_complex_interoperable<T>] *)
Definition is_complex_interoperable (t : cpp_type) : bool :=
  disjunction_v
    ([is_rv_complex_interoperable (uncvref_t t); is_cpp_complex (uncvref_t t)]
     ++ if MPPP_WITH_QUADMATH then [is_same (uncvref_t t) (plain complex128_class)] else []).

(** [are_complex_op_types<T, U>] *)
Definition are_complex_op_types (t u : cpp_type) : bool :=
  disjunction_v
    [conjunction_v [is_same (plain complex_class) (uncvref_t t);
                    is_same (plain complex_class) (uncvref_t u)];
     conjunction_v [is_same (plain complex_class) (uncvref_t t);
                    is_complex_interoperable u];
     conjunction_v [is_same (plain complex_class) (uncvref_t u);
                    is_complex_interoperable t]].

(** [are_complex_in_place_op_types<T, U>] *)
Definition are_complex_in_place_op_types (t u : cpp_type) : bool :=
  conjunction_v [are_complex_op_types t u; negation (is_const (unref_t t))].

End Config.

End complex_traits.

(** [enum struct real_kind] *)
Module real_kind.

Inductive t : Type :=
| nan
| inf
| zero.

End real_kind.

Section Complex.

(** ** Precision policy *)

(** [real_prec_min()] and [real_prec_max()]: constants of the MPFR build. *)
Variables real_prec_min real_prec_max : mpfr_prec_t.

(** Modelled from the spec: [detail::real_prec_check] of [real.hpp]
    (section 4.1: a precision is legal iff
    [real_prec_min() <= p <= real_prec_max()]). *)
Definition real_prec_check (p : mpfr_prec_t) : bool :=
  (real_prec_min <=? p) && (p <=? real_prec_max).

(** [static ::mpfr_prec_t check_init_prec(::mpfr_prec_t p)] *)
Definition check_init_prec (p : mpfr_prec_t) : result mpfr_prec_t :=
  if negb (real_prec_check p) then
    throw (invalid_argument
             ("Cannot init a complex with a precision of " ++ to_string p
              ++ ": the maximum allowed precision is " ++ to_string real_prec_max
              ++ ", the minimum allowed precision is " ++ to_string real_prec_min))
  else ret p.

(** [static ::mpfr_prec_t check_set_prec(::mpfr_prec_t p)] *)
Definition check_set_prec (p : mpfr_prec_t) : result mpfr_prec_t :=
  if negb (real_prec_check p) then
    throw (invalid_argument
             ("Cannot set the precision of a complex to the value " ++ to_string p
              ++ ": the maximum allowed precision is " ++ to_string real_prec_max
              ++ ", the minimum allowed precision is " ++ to_string real_prec_min))
  else ret p.

(** ** The operations of [real] the header calls *)

(** Modelled from the spec: the precision check of [real]'s constructors
    (section 4.1: an illegal precision fails with [InvalidArgument],
    carrying the offending value and the two bounds). *)
Definition real_check_init_prec (p : mpfr_prec_t) : result mpfr_prec_t :=
  if negb (real_prec_check p) then
    throw (invalid_argument
             ("Cannot init a real with a precision of " ++ to_string p
              ++ ": the maximum allowed precision is " ++ to_string real_prec_max
              ++ ", the minimum allowed precision is " ++ to_string real_prec_min))
  else ret p.

(** Modelled from the spec: the precision check of [real::set_prec]
    (section 4.1, as above). *)
Definition real_check_set_prec (p : mpfr_prec_t) : result mpfr_prec_t :=
  if negb (real_prec_check p) then
    throw (invalid_argument
             ("Cannot set the precision of a real to the value " ++ to_string p
              ++ ": the maximum allowed precision is " ++ to_string real_prec_max
              ++ ", the minimum allowed precision is " ++ to_string real_prec_min))
  else ret p.

(** Modelled from the spec: [real{x, p}] (section 6: construction with a
    precision parameter; section 4.1: the precision is checked at init
    time).  The new value has precision [p]. *)
Definition real_ctor_prec {T : Type} `{real_prec_constructible T}
    (x : T) (p : mpfr_prec_t) : result real :=
  p <- real_check_init_prec p ;;
  v <- init_value x p ;;
  ret {| m_mpfr := mpfr_init_set p v |}.

(** Modelled from the spec: [real{x}] (section 4.2: the precision is
    deduced from the source, its natural precision). *)
Definition real_ctor {T : Type} `{rv_complex_interoperable T} (x : T) : real :=
  let p := real_deduce_precision x in
  {| m_mpfr := mpfr_init_set p (rv_value x p) |}.

(** Modelled from the spec: [real{k, sign, p}] (section 6: the
    set-to-zero-at-a-given-precision primitive, and its siblings for NaN
    and infinity). *)
Definition real_ctor_kind (k : real_kind.t) (sign : Z) (p : mpfr_prec_t) : result real :=
  p <- real_check_init_prec p ;;
  ret {| m_mpfr :=
           mpfr_init_set p
             match k with
             | real_kind.nan => value_nan
             | real_kind.inf => value_inf sign
             | real_kind.zero => value_zero sign
             end |}.

(** Modelled from the spec: [real::operator=(T &&)] (section 4.2: the
    assignment operator of the real part may alter its precision; the
    precision becomes the natural precision of the operand). *)
Definition real_assign {T : Type} `{rv_complex_interoperable T} (x : T) (r : real) : real :=
  let p := real_deduce_precision x in
  {| m_mpfr := mpfr_store (mpfr_set_prec (m_mpfr r) p) (rv_value x p) |}.

(** Modelled from the spec: [real::set_prec] (section 6: the precision
    setter; the header calls it a destructive one).  Nothing is touched
    when the precision is refused. *)
Definition real_set_prec (p : mpfr_prec_t) (r : real) : result real :=
  p <- real_check_set_prec p ;;
  ret {| m_mpfr := mpfr_set_prec (m_mpfr r) p |}.

(** Modelled from the spec: [real::set_zero()], whose sign argument
    defaults to [0] (section 6). *)
Definition real_set_zero (r : real) : real :=
  {| m_mpfr := mpfr_set_zero (m_mpfr r) 0 |}.

(** Modelled from the spec: [real::set(const T &)], the setter that, as
    the header notes in [dispatch_generic_assignment], does not alter the
    precision: the operand is rounded to the precision [r] has. *)
Definition real_set {T : Type} `{rv_complex_interoperable T} (x : T) (r : real) : real :=
  {| m_mpfr := mpfr_store (m_mpfr r) (rv_value x (real_get_prec r)) |}.

(** ** Constructors *)

(** [void real_imag_ctor_impl(T &&re, U &&im, ::mpfr_prec_t p)], on a
    [this] that holds nothing yet. *)
Definition real_imag_ctor_impl {T U : Type}
    `{real_prec_constructible T} `{real_prec_constructible U}
    (re : T) (im : U) (p : mpfr_prec_t) : result complex :=
  (* Init real-imaginary parts with the input prec. *)
  rp <- real_ctor_prec re p ;;
  ip <- real_ctor_prec im p ;;
  (* Shallow-copy into this. *)
  let this := {| m_mpc := Build_mpc_struct_t (m_mpfr rp) (m_mpfr ip) |} in
  (* Deactivate the temporaries. *)
  let rp := real_deactivate rp in
  let ip := real_deactivate ip in
  ret this.

(** [explicit complex(T &&re, U &&im)], both real-valued interoperable. *)
Definition complex_re_im {T U : Type}
    `{rv_complex_interoperable T} `{rv_complex_interoperable U}
    (re : T) (im : U) : result complex :=
  real_imag_ctor_impl re im
    (c_max (real_deduce_precision re) (real_deduce_precision im)).

(** [explicit complex(T &&re, U &&im, complex_prec_t p)] and its three
    overloads with a string for either part: each argument is of a
    real-valued interoperable type or of a string type. *)
Definition complex_re_im_prec {T U : Type}
    `{real_prec_constructible T} `{real_prec_constructible U}
    (re : T) (im : U) (p : complex_prec_t) : result complex :=
  real_imag_ctor_impl re im (static_cast_prec p).

(** [explicit complex(gtag, std::true_type, T &&x, const Args &... args)];
    the pack [args] is empty or one [complex_prec_t]. *)
Definition complex_gtag_true {T : Type} `{rv_complex_interoperable T}
    (x : T) (args : option complex_prec_t) : result complex :=
  (* Init the real part from x + optional explicit precision. *)
  re <- match args with
        | Some p => real_ctor_prec x (static_cast_prec p)
        | None => ret (real_ctor x)
        end ;;
  (* The imaginary part is inited to +0, using either the explicit
     precision (if provided) or the precision of the real part otherwise. *)
  im <- match args with
        | Some p => real_ctor_kind real_kind.zero 1 (static_cast_prec p)
        | None => real_ctor_kind real_kind.zero 1 (real_get_prec re)
        end ;;
  (* Shallow-copy into this. *)
  let this := {| m_mpc := Build_mpc_struct_t (m_mpfr re) (m_mpfr im) |} in
  (* Deactivate the temporaries. *)
  let re := real_deactivate re in
  let im := real_deactivate im in
  ret this.

(** [explicit complex(gtag, std::false_type, const T &c, const Args &... args)] *)
Definition complex_gtag_false {T : Type} `{cv_complex_interoperable T}
    (c : T) (args : option complex_prec_t) : result complex :=
  match args with
  | None => complex_re_im (c_real c) (c_imag c)
  | Some p => complex_re_im_prec (c_real c) (c_imag c) p
  end.

(** [explicit complex(T &&x)] *)
Definition complex_generic {T : Type} `{complex_interoperable T} (x : T) : result complex :=
  match is_rv_complex_interoperable with
  | true_type _ => complex_gtag_true x None
  | false_type _ => complex_gtag_false x None
  end.

(** [explicit complex(T &&x, complex_prec_t p)] *)
Definition complex_generic_prec {T : Type} `{complex_interoperable T}
    (x : T) (p : complex_prec_t) : result complex :=
  match is_rv_complex_interoperable with
  | true_type _ => complex_gtag_true x (Some p)
  | false_type _ => complex_gtag_false x (Some p)
  end.

(** [explicit complex(const stag &, ..., int, ::mpfr_prec_t)]: the three
    private string constructors, declared in the header and defined in
    [complex.cpp]. *)
Variable complex_stag : string_type -> Z -> mpfr_prec_t -> result complex.

(** [explicit complex(const T &s, int base, ::mpfr_prec_t p)] *)
Definition complex_string_base_prec (s : string_type) (base : Z) (p : mpfr_prec_t) :
    result complex :=
  complex_stag s base p.

(** [explicit complex(const T &s, ::mpfr_prec_t p)] *)
Definition complex_string_prec (s : string_type) (p : mpfr_prec_t) : result complex :=
  complex_string_base_prec s 10 p.

(** ** Generic assignment *)

(** [void dispatch_generic_assignment(T &&x, std::true_type)].  The two
    views are destroyed in reverse order of construction, also when
    [set_prec] throws. *)
Definition dispatch_generic_assignment_true {T : Type} `{rv_complex_interoperable T}
    (x : T) (this : complex) : result unit * complex :=
  let re := re_ref.ctor this in
  let im := im_ref.ctor this in
  (* Assign the real part. *)
  let re := re_ref.assign re (real_assign x (re_ref.deref re)) in
  (* Set the imaginary part to zero with the same precision as re. *)
  match real_set_prec (real_get_prec (re_ref.deref re)) (im_ref.deref im) with
  | inl e =>
      let this := fst (im_ref.dtor im this) in
      let this := fst (re_ref.dtor re this) in
      (inl e, this)
  | inr r =>
      let im := im_ref.assign im r in
      let im := im_ref.assign im (real_set_zero (im_ref.deref im)) in
      let this := fst (im_ref.dtor im this) in
      let this := fst (re_ref.dtor re this) in
      (inr tt, this)
  end.

(** [void dispatch_generic_assignment(const T &c, std::false_type)] *)
Definition dispatch_generic_assignment_false {T : Type} `{cv_complex_interoperable T}
    (c : T) (this : complex) : result unit * complex :=
  (* Determine the max prec between the real and imaginary parts. *)
  let p := c_max (real_deduce_precision (c_real c)) (real_deduce_precision (c_imag c)) in
  let re := re_ref.ctor this in
  let im := im_ref.ctor this in
  (* Destructively set the precision to p for both re and im. *)
  match real_set_prec p (re_ref.deref re) with
  | inl e =>
      let this := fst (im_ref.dtor im this) in
      let this := fst (re_ref.dtor re this) in
      (inl e, this)
  | inr r =>
      let re := re_ref.assign re r in
      match real_set_prec p (im_ref.deref im) with
      | inl e =>
          let this := fst (im_ref.dtor im this) in
          let this := fst (re_ref.dtor re this) in
          (inl e, this)
      | inr r =>
          let im := im_ref.assign im r in
          (* Assign the values from c with the setter (and not with the
             assignment operator, which may alter the precision of re
             and im). *)
          let re := re_ref.assign re (real_set (c_real c) (re_ref.deref re)) in
          let im := im_ref.assign im (real_set (c_imag c) (im_ref.deref im)) in
          let this := fst (im_ref.dtor im this) in
          let this := fst (re_ref.dtor re this) in
          (inr tt, this)
      end
  end.

(** [complex &operator=(T &&x)] *)
Definition assign {T : Type} `{complex_interoperable T}
    (x : T) (this : complex) : result unit * complex :=
  match is_rv_complex_interoperable with
  | true_type _ => dispatch_generic_assignment_true x this
  | false_type _ => dispatch_generic_assignment_false x this
  end.

(** ** Generic setter *)

(** [void set_impl(const T &x, std::true_type)] *)
Definition set_impl_true {T : Type} `{rv_complex_interoperable T}
    (x : T) (this : complex) : complex :=
  let re := re_ref.ctor this in
  let re := re_ref.assign re (real_set x (re_ref.deref re)) in
  let this :=
    {| m_mpc := set_imagref (m_mpc this) (mpfr_set_zero (mpc_imagref (m_mpc this)) 1) |} in
  fst (re_ref.dtor re this).

(** [void set_impl(const T &c, std::false_type)] *)
Definition set_impl_false {T : Type} `{cv_complex_interoperable T}
    (c : T) (this : complex) : complex :=
  let re := re_ref.ctor this in
  let im := im_ref.ctor this in
  let re := re_ref.assign re (real_set (c_real c) (re_ref.deref re)) in
  let im := im_ref.assign im (real_set (c_imag c) (im_ref.deref im)) in
  let this := fst (im_ref.dtor im this) in
  fst (re_ref.dtor re this).

(** [complex &set(const T &other)] *)
Definition set {T : Type} `{complex_interoperable T} (other : T) (this : complex) : complex :=
  match is_rv_complex_interoperable with
  | true_type _ => set_impl_true other this
  | false_type _ => set_impl_false other this
  end.

(** ** Changing the precision *)

(** [template <bool Check> void set_prec_impl(::mpfr_prec_t p)].  The
    argument of [mpc_set_prec] is evaluated, and may throw, before the
    call. *)
Definition set_prec_impl (Check : bool) (p : mpfr_prec_t) (this : complex) :
    result unit * complex :=
  match (if Check then check_set_prec p else ret p) with
  | inl e => (inl e, this)
  | inr p => (inr tt, {| m_mpc := mpc_set_prec (m_mpc this) p |})
  end.

(** [template <bool Check> void prec_round_impl(::mpfr_prec_t p_)] *)
Definition prec_round_impl (Check : bool) (p_ : mpfr_prec_t) (this : complex) :
    result unit * complex :=
  match (if Check then check_set_prec p_ else ret p_) with
  | inl e => (inl e, this)
  | inr p =>
      let this :=
        {| m_mpc := set_realref (m_mpc this) (mpfr_prec_round (mpc_realref (m_mpc this)) p) |} in
      let this :=
        {| m_mpc := set_imagref (m_mpc this) (mpfr_prec_round (mpc_imagref (m_mpc this)) p) |} in
      (inr tt, this)
  end.

(** ** Equality *)

(** [dispatch_complex_equality(const complex &c, const T &x)], [T]
    real-valued interoperable. *)
Definition dispatch_complex_equality_rv {T : Type} `{rv_complex_interoperable T}
    (c : complex) (x : T) : bool :=
  let rex := re_cref.ctor c in
  let result :=
    negb (mpfr_zero_p (mpc_imagref (m_mpc c)) =? 0) && real_eq (re_cref.deref rex) x in
  let rex := re_cref.dtor rex in
  result.

(** [dispatch_complex_equality(const complex &c1, const T &c2)], [T] not
    real-valued interoperable. *)
Definition dispatch_complex_equality_cv {T : Type} `{cv_complex_interoperable T}
    (c1 : complex) (c2 : T) : bool :=
  let rex := re_cref.ctor c1 in
  let iex := im_cref.ctor c1 in
  let result :=
    real_eq (re_cref.deref rex) (c_real c2) && real_eq (im_cref.deref iex) (c_imag c2) in
  let iex := im_cref.dtor iex in
  let rex := re_cref.dtor rex in
  result.

(** Overload resolution between the two function templates above. *)
Definition dispatch_complex_equality {T : Type} `{complex_interoperable T}
    (c : complex) (x : T) : bool :=
  match is_rv_complex_interoperable with
  | true_type _ => dispatch_complex_equality_rv c x
  | false_type _ => dispatch_complex_equality_cv c x
  end.

(** [dispatch_complex_equality(const T &x, const complex &c)] *)
Definition dispatch_complex_equality_rev {T : Type} `{complex_interoperable T}
    (x : T) (c : complex) : bool :=
  dispatch_complex_equality c x.

(** [operator==(const T &x, const U &y)] with the composite on the left,
    and with the composite on the right. *)
Definition eq_complex_l {T : Type} `{complex_interoperable T} (x : complex) (y : T) : bool :=
  dispatch_complex_equality x y.

Definition eq_complex_r {T : Type} `{complex_interoperable T} (x : T) (y : complex) : bool :=
  dispatch_complex_equality_rev x y.

(** [operator!=(const T &x, const U &y)] *)
Definition neq_complex_l {T : Type} `{complex_interoperable T} (x : complex) (y : T) : bool :=
  negb (eq_complex_l x y).

Definition neq_complex_r {T : Type} `{complex_interoperable T} (x : T) (y : complex) : bool :=
  negb (eq_complex_r x y).

(** ** Scopes that hold one view *)

(** [{ complex::re_ref re{c}; f( *re ); }]: acquire a read-write view on the
    real part, mutate the real it shows, leave the scope.  Returns the
    composite and the view as the destructor leaves it. *)
Definition re_ref_scope (f : real -> real) (c : complex) : complex * re_ref.t :=
  let re := re_ref.ctor c in
  let re := re_ref.assign re (f (re_ref.deref re)) in
  re_ref.dtor re c.

(** [{ complex::im_ref im{c}; f( *im ); }] *)
Definition im_ref_scope (f : real -> real) (c : complex) : complex * im_ref.t :=
  let im := im_ref.ctor c in
  let im := im_ref.assign im (f (im_ref.deref im)) in
  im_ref.dtor im c.

(** [{ complex::re_ref re{c}; complex::im_ref im{c}; f( *re ); g( *im ); }]:
    both read-write views at once, as the assignment and the setter hold
    them; the view on the imaginary part is destroyed first. *)
Definition re_im_ref_scope (f g : real -> real) (c : complex) : complex :=
  let re := re_ref.ctor c in
  let im := im_ref.ctor c in
  let re := re_ref.assign re (f (re_ref.deref re)) in
  let im := im_ref.assign im (g (im_ref.deref im)) in
  let c := fst (im_ref.dtor im c) in
  fst (re_ref.dtor re c).

(** Replace the real (imaginary) part of [c] by the real [r], leaving the
    other part alone. *)
Definition with_real_part (c : complex) (r : real) : complex :=
  {| m_mpc := Build_mpc_struct_t (m_mpfr r) (mpc_imagref (m_mpc c)) |}.

Definition with_imag_part (c : complex) (r : real) : complex :=
  {| m_mpc := Build_mpc_struct_t (mpc_realref (m_mpc c)) (m_mpfr r) |}.

(** [r] is an [invalid_argument] whose message names the precision [p]
    and both bounds. *)
Definition rejects {A : Type} (r : result A) (p : mpfr_prec_t) : Prop :=
  exists msg : string,
    r = inl (invalid_argument msg)
    /\ carries msg (to_string p)
    /\ carries msg (to_string real_prec_max)
    /\ carries msg (to_string real_prec_min).

(** What the generic constructor and the generic assignment leave, for a
    real-valued and for a complex-valued operand. *)
Definition built_from_rv {T : Type} `{rv_complex_interoperable T} (x : T) : complex :=
  let p := real_deduce_precision x in
  {| m_mpc := Build_mpc_struct_t (mpfr_init_set p (rv_value x p))
                                 (mpfr_init_set p (value_zero 1)) |}.

Definition built_from_parts {T U : Type}
    `{rv_complex_interoperable T} `{rv_complex_interoperable U}
    (x : T) (y : U) (p : mpfr_prec_t) : complex :=
  {| m_mpc := Build_mpc_struct_t (mpfr_init_set p (rv_value x p))
                                 (mpfr_init_set p (rv_value y p)) |}.

(** ** Reachable composites *)

(** The composite values the public operations defined in the header
    hand out: the generic and the binary constructors, move construction
    and move assignment (both objects involved), generic assignment, the
    generic setter and the two precision changes, on composites obtained
    the same way; the move constructor from an [mpc_t] whose two parts
    have one precision; and a scope with a read-write view in which the
    part shown keeps its precision. *)
Inductive produced : complex -> Prop :=
| produced_generic (T : Type) (tag : complex_interoperable T) (x : T) (c : complex) :
    complex_generic x = inr c -> produced c
| produced_generic_prec (T : Type) (tag : complex_interoperable T) (x : T)
    (p : complex_prec_t) (c : complex) :
    complex_generic_prec x p = inr c -> produced c
| produced_re_im (T U : Type) (rvT : rv_complex_interoperable T)
    (rvU : rv_complex_interoperable U) (x : T) (y : U) (c : complex) :
    complex_re_im x y = inr c -> produced c
| produced_re_im_prec (T U : Type) (pcT : real_prec_constructible T)
    (pcU : real_prec_constructible U) (x : T) (y : U) (p : complex_prec_t) (c : complex) :
    complex_re_im_prec x y p = inr c -> produced c
| produced_move (a : complex) :
    produced a -> produced (fst (complex_move a))
| produced_moved_from (a : complex) :
    produced a -> produced (snd (complex_move a))
| produced_move_assign (a b : complex) :
    produced a -> produced b -> produced (fst (move_assign a b))
| produced_move_assigned_from (a b : complex) :
    produced a -> produced b -> produced (snd (move_assign a b))
| produced_assign (T : Type) (tag : complex_interoperable T) (x : T) (t t' : complex) :
    assign x t = (inr tt, t') -> produced t'
| produced_set (T : Type) (tag : complex_interoperable T) (x : T) (t : complex) :
    produced t -> produced (set x t)
| produced_set_prec (Check : bool) (p : mpfr_prec_t) (t t' : complex) (r : result unit) :
    produced t -> set_prec_impl Check p t = (r, t') -> produced t'
| produced_prec_round (Check : bool) (p : mpfr_prec_t) (t t' : complex) (r : result unit) :
    produced t -> prec_round_impl Check p t = (r, t') -> produced t'
| produced_mpc_move (z : mpc_struct_t) :
    mpfr_get_prec (mpc_realref z) = mpfr_get_prec (mpc_imagref z) ->
    produced (complex_mpc_move z)
| produced_re_ref (f : real -> real) (t : complex) :
    produced t ->
    real_get_prec (f (real_part t)) = real_get_prec (real_part t) ->
    produced (fst (re_ref_scope f t))
| produced_im_ref (f : real -> real) (t : complex) :
    produced t ->
    real_get_prec (f (imag_part t)) = real_get_prec (imag_part t) ->
    produced (fst (im_ref_scope f t)).

(** ** Auxiliary facts *)

Ltac inv_bind H :=
  unfold bind, ret, throw in H; cbn beta iota in H; try discriminate H;
  repeat match type of H with
         | context [match ?m with inl _ => _ | inr _ => _ end] =>
             let E := fresh "E" in
             destruct m eqn:E; cbn beta iota in H; try discriminate H
         end.

Lemma c_max_is_max (a b : mpfr_prec_t) : c_max a b = Z.max a b.
Proof.
  unfold c_max. rewrite Z.gtb_ltb.
  destruct (Z.ltb_spec b a); lia.
Qed.

Lemma real_prec_check_spec (p : mpfr_prec_t) :
  real_prec_check p = true <-> real_prec_min <= p <= real_prec_max.
Proof.
  unfold real_prec_check. rewrite andb_true_iff, !Z.leb_le. tauto.
Qed.

Lemma real_prec_check_false (p : mpfr_prec_t) :
  ~ (real_prec_min <= p <= real_prec_max) -> real_prec_check p = false.
Proof.
  intros H. destruct (real_prec_check p) eqn:E; [|reflexivity].
  apply real_prec_check_spec in E. contradiction.
Qed.

Lemma append_empty_r (s : string) : (s ++ "")%string = s.
Proof. induction s as [|ch s IH]; simpl; [reflexivity | now rewrite IH]. Qed.

Lemma append_assoc (a b c : string) : ((a ++ b) ++ c)%string = (a ++ b ++ c)%string.
Proof. induction a as [|ch a IH]; simpl; [reflexivity | now rewrite IH]. Qed.

Lemma carries_mid (a s b : string) : carries (a ++ s ++ b) s.
Proof. exists a, b. reflexivity. Qed.

Lemma carries_prefix (a msg s : string) : carries msg s -> carries (a ++ msg) s.
Proof.
  intros (pre & post & ->). exists (a ++ pre)%string, post.
  now rewrite append_assoc.
Qed.

Lemma carries_end (a s : string) : carries (a ++ s) s.
Proof. exists a, EmptyString. now rewrite append_empty_r. Qed.

(** The four messages name the refused precision and both bounds. *)
Lemma message_carries (head : string) (p : mpfr_prec_t) :
  let msg := (head ++ to_string p
              ++ ": the maximum allowed precision is " ++ to_string real_prec_max
              ++ ", the minimum allowed precision is " ++ to_string real_prec_min)%string in
  carries msg (to_string p) /\ carries msg (to_string real_prec_max)
  /\ carries msg (to_string real_prec_min).
Proof.
  cbv zeta. repeat split.
  - apply carries_mid.
  - do 2 apply carries_prefix. apply carries_mid.
  - do 4 apply carries_prefix. apply carries_end.
Qed.

Lemma real_check_init_prec_ok (p : mpfr_prec_t) :
  real_prec_check p = true -> real_check_init_prec p = inr p.
Proof. intros H. unfold real_check_init_prec. now rewrite H. Qed.

Lemma real_check_set_prec_ok (p : mpfr_prec_t) :
  real_prec_check p = true -> real_check_set_prec p = inr p.
Proof. intros H. unfold real_check_set_prec. now rewrite H. Qed.

Lemma real_ctor_prec_prec (T : Type) (pc : real_prec_constructible T)
    (x : T) (p : mpfr_prec_t) (r : real) :
  real_ctor_prec x p = inr r -> real_get_prec r = p.
Proof.
  unfold real_ctor_prec, real_check_init_prec. intros H.
  destruct (negb (real_prec_check p)); inv_bind H.
  injection H as <-. reflexivity.
Qed.

Lemma real_ctor_kind_prec (k : real_kind.t) (sign : Z) (p : mpfr_prec_t) (r : real) :
  real_ctor_kind k sign p = inr r -> real_get_prec r = p.
Proof.
  unfold real_ctor_kind, real_check_init_prec. intros H.
  destruct (negb (real_prec_check p)); inv_bind H.
  injection H as <-. reflexivity.
Qed.

Lemma real_set_prec_prec (p : mpfr_prec_t) (r r' : real) :
  real_set_prec p r = inr r' -> real_get_prec r' = p.
Proof.
  unfold real_set_prec, real_check_set_prec. intros H.
  destruct (negb (real_prec_check p)); inv_bind H.
  injection H as <-. reflexivity.
Qed.

Lemma real_set_prec_ok (p : mpfr_prec_t) (r : real) :
  real_prec_check p = true ->
  real_set_prec p r = inr {| m_mpfr := mpfr_set_prec (m_mpfr r) p |}.
Proof.
  intros H. unfold real_set_prec. now rewrite (real_check_set_prec_ok _ H).
Qed.

Lemma real_assign_prec (T : Type) (rv : rv_complex_interoperable T) (x : T) (r : real) :
  real_get_prec (real_assign x r) = real_deduce_precision x.
Proof. reflexivity. Qed.

Lemma real_ctor_prec_ok (T : Type) (rv : rv_complex_interoperable T)
    (x : T) (p : mpfr_prec_t) :
  real_prec_check p = true ->
  real_ctor_prec x p = inr {| m_mpfr := mpfr_init_set p (rv_value x p) |}.
Proof.
  intros H. unfold real_ctor_prec. now rewrite (real_check_init_prec_ok _ H).
Qed.

Lemma real_ctor_kind_ok (k : real_kind.t) (sign : Z) (p : mpfr_prec_t) :
  real_prec_check p = true ->
  exists r : real, real_ctor_kind k sign p = inr r /\ real_get_prec r = p.
Proof.
  intros H. unfold real_ctor_kind. rewrite (real_check_init_prec_ok _ H).
  eexists. split; reflexivity.
Qed.

Lemma real_imag_ctor_impl_prec (T U : Type) (pcT : real_prec_constructible T)
    (pcU : real_prec_constructible U) (x : T) (y : U) (p : mpfr_prec_t) (c : complex) :
  real_imag_ctor_impl x y p = inr c ->
  mpfr_get_prec (mpc_realref (m_mpc c)) = p /\ mpfr_get_prec (mpc_imagref (m_mpc c)) = p.
Proof.
  unfold real_imag_ctor_impl. intros H.
  destruct (real_ctor_prec x p) as [e|rp] eqn:Ex; [discriminate H|].
  destruct (real_ctor_prec y p) as [e|ip] eqn:Ey; [discriminate H|].
  cbn in H. injection H as <-.
  apply real_ctor_prec_prec in Ex, Ey. split; assumption.
Qed.

(** ** Precision policy *)

(** C8: a precision outside [[real_prec_min(), real_prec_max()]] is
    refused with an [invalid_argument] whose message names the precision
    and both bounds: by [check_init_prec] and [check_set_prec], by the
    checked precision changes, which leave the composite exactly as it
    was, and by the constructors that take an explicit precision, which
    build nothing.  A precision inside the bounds is returned as it is. *)
Theorem precision_check (p : mpfr_prec_t) :
  (~ (real_prec_min <= p <= real_prec_max) ->
   rejects (check_init_prec p) p
   /\ rejects (check_set_prec p) p
   /\ (forall this : complex,
         rejects (fst (set_prec_impl true p this)) p
         /\ snd (set_prec_impl true p this) = this)
   /\ (forall this : complex,
         rejects (fst (prec_round_impl true p this)) p
         /\ snd (prec_round_impl true p this) = this)
   /\ (forall (T : Type) (tag : complex_interoperable T) (x : T),
         rejects (complex_generic_prec x (ComplexPrec p)) p)
   /\ (forall (T U : Type) (pcT : real_prec_constructible T)
              (pcU : real_prec_constructible U) (x : T) (y : U),
         rejects (complex_re_im_prec x y (ComplexPrec p)) p))
  /\ (real_prec_min <= p <= real_prec_max ->
      check_init_prec p = inr p /\ check_set_prec p = inr p).
Proof.
  split.
  - intros Hout. apply real_prec_check_false in Hout.
    assert (Hinit : rejects (check_init_prec p) p).
    { unfold check_init_prec. rewrite Hout. cbn [negb]. unfold throw.
      eexists. split; [reflexivity|]. apply message_carries. }
    assert (Hset : rejects (check_set_prec p) p).
    { unfold check_set_prec. rewrite Hout. cbn [negb]. unfold throw.
      eexists. split; [reflexivity|]. apply message_carries. }
    assert (Hreal : forall (T : Type) (pc : real_prec_constructible T) (x : T),
               rejects (real_ctor_prec x p) p).
    { intros T pc x. unfold real_ctor_prec, real_check_init_prec.
      rewrite Hout. cbn [negb bind]. unfold throw.
      eexists. split; [reflexivity|]. apply message_carries. }
    assert (Himpl : forall (T U : Type) (pcT : real_prec_constructible T)
                      (pcU : real_prec_constructible U) (x : T) (y : U),
               rejects (real_imag_ctor_impl x y p) p).
    { intros T U pcT pcU x y. unfold real_imag_ctor_impl.
      destruct (Hreal T pcT x) as (msg & -> & Hmsg).
      exists msg. split; [reflexivity | exact Hmsg]. }
    split; [exact Hinit|]. split; [exact Hset|].
    split; [|split; [|split]].
    + intros this. unfold set_prec_impl.
      destruct Hset as (msg & -> & Hmsg). cbn [fst snd].
      split; [|reflexivity]. exists msg. split; [reflexivity | exact Hmsg].
    + intros this. unfold prec_round_impl.
      destruct Hset as (msg & -> & Hmsg). cbn [fst snd].
      split; [|reflexivity]. exists msg. split; [reflexivity | exact Hmsg].
    + intros T tag x. unfold complex_generic_prec, is_rv_complex_interoperable.
      destruct tag as [rv|cv].
      * unfold complex_gtag_true.
        destruct (Hreal T _ x) as (msg & E & Hmsg).
        cbn [static_cast_prec]. rewrite E.
        exists msg. split; [reflexivity | exact Hmsg].
      * unfold complex_gtag_false, complex_re_im_prec. apply Himpl.
    + intros T U pcT pcU x y. unfold complex_re_im_prec. apply Himpl.
  - intros Hin. apply real_prec_check_spec in Hin.
    unfold check_init_prec, check_set_prec. rewrite Hin. split; reflexivity.
Qed.

(** ** Move semantics *)

(** C1, amended: move construction leaves the source invalid and gives
    the new object exactly the representation the source had.  Move
    assignment swaps the two representations: the target gets what the
    source had, the source gets what the target had, and so the source is
    valid afterwards exactly when the target was valid before. *)
Theorem move_law (a b : complex) :
  (is_valid (snd (complex_move a)) = false /\ fst (complex_move a) = a)
  /\ (fst (move_assign b a) = a
      /\ snd (move_assign b a) = b
      /\ is_valid (snd (move_assign b a)) = is_valid b).
Proof.
  destruct a as [za], b as [zb]. cbn. repeat split.
Qed.

(** ** Equality with a real-valued operand *)

(** C2: for a real-valued interoperable operand [x], [c == x] holds iff
    the imaginary part of [c] is a zero and the real part of [c] compares
    equal to [x], and [x == c] is [c == x].  The two parts are those the
    representation [m_mpc] of [c] holds in its fields [im] and [re]: the
    imaginary one is a zero when its exponent field is the zero marker,
    and the real one is compared as the [real] that owns the struct in
    [re]. *)
Theorem equality_real_valued (T : Type) (rv : rv_complex_interoperable T)
    (c : complex) (x : T) :
  (@eq_complex_l T (true_type rv) c x = true
   <-> _mpfr_exp (im (m_mpc c)) = MPFR_EXP_ZERO
       /\ real_eq {| m_mpfr := re (m_mpc c) |} x = true)
  /\ @eq_complex_r T (true_type rv) x c = @eq_complex_l T (true_type rv) c x
  /\ @neq_complex_l T (true_type rv) c x = negb (@eq_complex_l T (true_type rv) c x)
  /\ @neq_complex_r T (true_type rv) x c = @neq_complex_l T (true_type rv) c x.
Proof.
  unfold neq_complex_r, eq_complex_r, neq_complex_l, eq_complex_l,
    dispatch_complex_equality_rev, dispatch_complex_equality, is_rv_complex_interoperable,
    dispatch_complex_equality_rv.
  cbv zeta. split; [|repeat split].
  destruct c as [[zr zi]].
  cbn [m_mpc re im mpc_imagref mpc_realref re_cref.ctor re_cref.deref re_cref.m_value
       real_shallow_copy].
  rewrite andb_true_iff, negb_true_iff, Z.eqb_neq. unfold mpfr_zero_p.
  split.
  - intros [Hz He]. split; [|exact He].
    destruct (_mpfr_exp zi); [reflexivity | contradiction Hz; reflexivity ..].
  - intros [Hz He]. split; [|exact He]. rewrite Hz. discriminate.
Qed.

(** ** Views *)

(** C9: a read-write view on the real part, a mutation [f] through it and
    the end of its scope leave the composite with [f] of its former real
    part as real part and the imaginary part as it was; the view is
    deactivated.  The former real part is the struct the field [re] of
    the representation held before the scope, the imaginary part the
    struct in [im].  The same holds, with the parts exchanged, for a view
    on the imaginary part. *)
Theorem view_round_trip (f : real -> real) (c : complex) :
  (fst (re_ref_scope f c) = with_real_part c (f {| m_mpfr := re (m_mpc c) |})
   /\ re (m_mpc (fst (re_ref_scope f c))) = m_mpfr (f {| m_mpfr := re (m_mpc c) |})
   /\ im (m_mpc (fst (re_ref_scope f c))) = im (m_mpc c)
   /\ real_is_valid (re_ref.m_value (snd (re_ref_scope f c))) = false)
  /\ (fst (im_ref_scope f c) = with_imag_part c (f {| m_mpfr := im (m_mpc c) |})
      /\ im (m_mpc (fst (im_ref_scope f c))) = m_mpfr (f {| m_mpfr := im (m_mpc c) |})
      /\ re (m_mpc (fst (im_ref_scope f c))) = re (m_mpc c)
      /\ real_is_valid (im_ref.m_value (snd (im_ref_scope f c))) = false).
Proof.
  destruct c as [[zr zi]].
  unfold re_ref_scope, im_ref_scope, with_real_part, with_imag_part.
  cbn. repeat split.
Qed.

(** ** String constructors *)

(** C10: the constructor from a string and a precision is the
    constructor from a string, a base and a precision at base 10. *)
Theorem string_ctor_default_base (s : string_type) (p : mpfr_prec_t) :
  complex_string_prec s p = complex_string_base_prec s 10 p
  /\ complex_string_prec s p = complex_stag s 10 p.
Proof.
  unfold complex_string_prec, complex_string_base_prec. split; reflexivity.
Qed.

(** ** The generic setter *)

(** C3, amended: [t.set(x)] keeps the precision of [t].  Each part keeps
    the precision it had; for a real-valued [x] the real part is set from
    [x] with [real]'s setter (the value of [x] rounded to that precision)
    and the imaginary part becomes +0; for a complex-valued [x] the two
    parts are set from [x.real()] and [x.imag()] the same way. *)
Theorem set_keeps_precision (t : complex) :
  (forall (T : Type) (tag : complex_interoperable T) (x : T),
      mpfr_get_prec (mpc_realref (m_mpc (set x t))) = mpfr_get_prec (mpc_realref (m_mpc t))
      /\ mpfr_get_prec (mpc_imagref (m_mpc (set x t))) = mpfr_get_prec (mpc_imagref (m_mpc t))
      /\ get_prec (set x t) = get_prec t)
  /\ (forall (T : Type) (rv : rv_complex_interoperable T) (x : T),
         real_part (@set T (true_type rv) x t) = real_set x (real_part t)
         /\ m_mpfr (imag_part (@set T (true_type rv) x t))
            = mpfr_set_zero (mpc_imagref (m_mpc t)) 1)
  /\ (forall (T : Type) (cv : cv_complex_interoperable T) (c : T),
         real_part (@set T (false_type cv) c t) = real_set (c_real c) (real_part t)
         /\ imag_part (@set T (false_type cv) c t) = real_set (c_imag c) (imag_part t)).
Proof.
  destruct t as [[zr zi]]. split; [|split].
  - intros T [rv|cv] x; unfold set, is_rv_complex_interoperable, get_prec;
      cbn; repeat split.
  - intros T rv x. split; reflexivity.
  - intros T cv c. split; reflexivity.
Qed.

(** ** Generic assignment *)

(** C4: generic assignment is resolved by the tag of the operand's type.
    For a real-valued [x], the real part becomes [x] as [real]'s
    assignment leaves it, and the imaginary part becomes +0 at the
    precision the real part has after that.  For a complex-valued [c], both parts are first
    given the precision [max (deduced precision of c.real())
    (deduced precision of c.imag())], and then set, with [real]'s setter,
    from [c.real()] and [c.imag()]. *)
Theorem generic_assignment (t : complex)
    (T : Type) (rv : rv_complex_interoperable T) (x : T)
    (U : Type) (cv : cv_complex_interoperable U) (c : U) :
  let p := Z.max (real_deduce_precision (c_real c)) (real_deduce_precision (c_imag c)) in
  (@assign T (true_type rv) x t = dispatch_generic_assignment_true x t
   /\ @assign U (false_type cv) c t = dispatch_generic_assignment_false c t)
  /\ (real_prec_check (real_deduce_precision x) = true ->
      exists t' : complex,
        @assign T (true_type rv) x t = (inr tt, t')
        /\ real_part t' = real_assign x (real_part t)
        /\ mpfr_get_prec (mpc_imagref (m_mpc t')) = real_get_prec (real_part t')
        /\ mpfr_zero_p (mpc_imagref (m_mpc t')) <> 0
        /\ _mpfr_sign (mpc_imagref (m_mpc t')) = 1)
  /\ (real_prec_check p = true ->
      exists t' : complex,
        @assign U (false_type cv) c t = (inr tt, t')
        /\ real_part t'
           = real_set (c_real c) {| m_mpfr := mpfr_set_prec (mpc_realref (m_mpc t)) p |}
        /\ imag_part t'
           = real_set (c_imag c) {| m_mpfr := mpfr_set_prec (mpc_imagref (m_mpc t)) p |}
        /\ mpfr_get_prec (mpc_realref (m_mpc t')) = p
        /\ mpfr_get_prec (mpc_imagref (m_mpc t')) = p).
Proof.
  intros p. split; [split; reflexivity|]. split.
  - intros Hx.
    unfold assign, is_rv_complex_interoperable, dispatch_generic_assignment_true.
    cbv zeta.
    cbn [re_ref.deref re_ref.assign re_ref.m_value im_ref.deref im_ref.assign
         im_ref.m_value].
    rewrite real_assign_prec, (real_set_prec_ok _ _ Hx).
    eexists. split; [reflexivity|].
    destruct t as [[zr zi]]. cbn. repeat split. discriminate.
  - intros Hp. subst p. rewrite <- c_max_is_max in Hp |- *.
    unfold assign, is_rv_complex_interoperable, dispatch_generic_assignment_false.
    cbv zeta.
    cbn [re_ref.deref re_ref.assign re_ref.m_value im_ref.deref im_ref.assign
         im_ref.m_value].
    rewrite (real_set_prec_ok _ _ Hp).
    cbn [re_ref.deref re_ref.assign re_ref.m_value im_ref.deref im_ref.assign
         im_ref.m_value].
    rewrite (real_set_prec_ok _ _ Hp).
    eexists. split; [reflexivity|].
    destruct t as [[zr zi]]. cbn. repeat split.
Qed.

(** ** Construction *)

(** C7: the composite built from two real-valued values and no
    precision has the larger of their two natural precisions.  The natural
    precision of a built-in type is one constant for all its values; that
    of a [real] is the precision it has. *)
Theorem deduction_law (T U : Type) (rvT : rv_complex_interoperable T)
    (rvU : rv_complex_interoperable U) (x : T) (y : U) :
  real_prec_check (Z.max (real_deduce_precision x) (real_deduce_precision y)) = true ->
  (exists c : complex,
      complex_re_im x y = inr c
      /\ get_prec c = Some (Z.max (real_deduce_precision x) (real_deduce_precision y)))
  /\ (forall r : real, real_deduce_precision r = real_get_prec r)
  /\ (forall a b : cpp_int, real_deduce_precision a = real_deduce_precision b)
  /\ (forall a b : cpp_double, real_deduce_precision a = real_deduce_precision b).
Proof.
  intros Hp. split; [|repeat split].
  rewrite <- c_max_is_max in Hp |- *.
  unfold complex_re_im, real_imag_ctor_impl.
  rewrite !(real_ctor_prec_ok _ _ _ _ Hp). cbn [bind ret].
  eexists. split; [reflexivity|].
  unfold get_prec. cbn. now rewrite Z.eqb_refl.
Qed.

(** ** Invariant I1 *)

Lemma same_prec_get_prec (c : complex) :
  same_prec c -> get_prec c = Some (mpfr_get_prec (mpc_realref (m_mpc c))).
Proof.
  unfold same_prec, get_prec. intros ->. now rewrite Z.eqb_refl.
Qed.

Lemma complex_gtag_true_same_prec (T : Type) (rv : rv_complex_interoperable T)
    (x : T) (args : option complex_prec_t) (c : complex) :
  complex_gtag_true x args = inr c -> same_prec c.
Proof.
  unfold complex_gtag_true. intros H.
  destruct args as [p|].
  - destruct (real_ctor_prec x (static_cast_prec p)) as [e|r] eqn:Er; [discriminate H|].
    destruct (real_ctor_kind real_kind.zero 1 (static_cast_prec p)) as [e|i] eqn:Ei;
      [discriminate H|].
    cbn in H. injection H as <-.
    apply real_ctor_prec_prec in Er. apply real_ctor_kind_prec in Ei.
    unfold same_prec. cbn. unfold real_get_prec in Er, Ei. congruence.
  - cbn [bind ret] in H.
    destruct (real_ctor_kind real_kind.zero 1 (real_get_prec (real_ctor x)))
      as [e|i] eqn:Ei; [discriminate H|].
    cbn in H. injection H as <-.
    apply real_ctor_kind_prec in Ei.
    unfold same_prec. cbn. unfold real_get_prec in Ei. cbn in Ei. congruence.
Qed.

Lemma real_imag_ctor_impl_same_prec (T U : Type) (pcT : real_prec_constructible T)
    (pcU : real_prec_constructible U) (x : T) (y : U) (p : mpfr_prec_t) (c : complex) :
  real_imag_ctor_impl x y p = inr c -> same_prec c.
Proof.
  intros H. apply real_imag_ctor_impl_prec in H. unfold same_prec. destruct H. congruence.
Qed.

Lemma complex_gtag_false_same_prec (T : Type) (cv : cv_complex_interoperable T)
    (x : T) (args : option complex_prec_t) (c : complex) :
  complex_gtag_false x args = inr c -> same_prec c.
Proof.
  unfold complex_gtag_false, complex_re_im, complex_re_im_prec.
  destruct args; apply real_imag_ctor_impl_same_prec.
Qed.

Lemma assign_same_prec (T : Type) (tag : complex_interoperable T)
    (x : T) (t t' : complex) :
  assign x t = (inr tt, t') -> same_prec t'.
Proof.
  unfold assign, is_rv_complex_interoperable. destruct tag as [rv|cv].
  - unfold dispatch_generic_assignment_true. cbv zeta.
    cbn [re_ref.deref re_ref.assign re_ref.m_value im_ref.deref im_ref.assign
         im_ref.m_value].
    destruct (real_set_prec _ _) as [e|r] eqn:E; intros H; [discriminate H|].
    injection H as <-. apply real_set_prec_prec in E.
    unfold same_prec. destruct t as [[zr zi]]. cbn in *.
    unfold real_get_prec, mpfr_get_prec in *. cbn in E. congruence.
  - unfold dispatch_generic_assignment_false. cbv zeta.
    cbn [re_ref.deref re_ref.assign re_ref.m_value im_ref.deref im_ref.assign
         im_ref.m_value].
    match goal with
    | |- context [real_set_prec ?q ?v] =>
        destruct (real_set_prec q v) as [e|r] eqn:Er; intros H; [discriminate H|]
    end.
    match type of H with
    | context [real_set_prec ?q ?v] =>
        destruct (real_set_prec q v) as [e|i] eqn:Ei; [discriminate H|]
    end.
    injection H as <-. apply real_set_prec_prec in Er, Ei.
    unfold same_prec. destruct t as [[zr zi]]. cbn in *.
    unfold real_get_prec, mpfr_get_prec in *. cbn in Er, Ei. congruence.
Qed.

(** C5, amended: every composite handed out by the generic and binary
    constructors, move construction and move assignment, generic
    assignment, the generic setter and the precision changes has the same
    precision in its real and in its imaginary part, and [get_prec]
    returns it.  The move constructor from an [mpc_t] and a write through
    a read-write view keep this when the caller does: when the adopted
    representation has one precision, and when the part shown by the view
    leaves the scope with the precision it had. *)
Theorem invariant_I1 (c : complex) :
  produced c ->
  same_prec c /\ get_prec c = Some (mpfr_get_prec (mpc_realref (m_mpc c))).
Proof.
  intros H. assert (Hs : same_prec c); [|split; [exact Hs | now apply same_prec_get_prec]].
  induction H as
    [ T tag x c Hc | T tag x p c Hc | T U rvT rvU x y c Hc | T U pcT pcU x y p c Hc
    | a Ha IHa | a Ha IHa | a b Ha IHa Hb IHb | a b Ha IHa Hb IHb
    | T tag x t t' Ht | T tag x t Ht IHt
    | Check p t t' r Ht IHt Hr | Check p t t' r Ht IHt Hr
    | z Hz | f t Ht IHt Hf | f t Ht IHt Hf ].
  - unfold complex_generic, is_rv_complex_interoperable in Hc. destruct tag.
    + exact (complex_gtag_true_same_prec _ _ _ _ _ Hc).
    + exact (complex_gtag_false_same_prec _ _ _ _ _ Hc).
  - unfold complex_generic_prec, is_rv_complex_interoperable in Hc. destruct tag.
    + exact (complex_gtag_true_same_prec _ _ _ _ _ Hc).
    + exact (complex_gtag_false_same_prec _ _ _ _ _ Hc).
  - exact (real_imag_ctor_impl_same_prec _ _ _ _ _ _ _ _ Hc).
  - exact (real_imag_ctor_impl_same_prec _ _ _ _ _ _ _ _ Hc).
  - destruct a as [[zr zi]]. exact IHa.
  - destruct a as [[zr zi]]. exact IHa.
  - destruct a, b. exact IHb.
  - destruct a, b. exact IHa.
  - exact (assign_same_prec _ _ _ _ _ Ht).
  - destruct t as [[zr zi]]. unfold same_prec in *.
    unfold set, is_rv_complex_interoperable. destruct tag; cbn in *; exact IHt.
  - unfold set_prec_impl in Hr.
    destruct (if Check then check_set_prec p else ret p) as [e|q].
    + injection Hr as _ <-. exact IHt.
    + injection Hr as _ <-. reflexivity.
  - unfold prec_round_impl in Hr.
    destruct (if Check then check_set_prec p else ret p) as [e|q].
    + injection Hr as _ <-. exact IHt.
    + injection Hr as _ <-. reflexivity.
  - exact Hz.
  - destruct t as [[zr zi]]. unfold same_prec in *. cbn in *.
    unfold real_get_prec in Hf. cbn in Hf. congruence.
  - destruct t as [[zr zi]]. unfold same_prec in *. cbn in *.
    unfold real_get_prec in Hf. cbn in Hf. congruence.
Qed.

(** ** Exact conversions *)

(** A significand that fits the precision is not rounded. *)
Lemma size_le_of_lt_pow2 (m : N) (p : Z) :
  0 <= p -> Z.of_N m < 2 ^ p -> Z.of_N (N.size m) <= p.
Proof.
  intros Hp Hm.
  destruct (Z.le_gt_cases (Z.of_N (N.size m)) p) as [H|H]; [exact H|exfalso].
  assert (Hs : (2 ^ N.size m <= N.succ_double m)%N) by apply N.size_le.
  apply N2Z.inj_le in Hs. rewrite N2Z.inj_pow, N.succ_double_spec in Hs.
  rewrite N2Z.inj_add, N2Z.inj_mul in Hs.
  change (Z.of_N 2) with 2 in Hs. change (Z.of_N 1) with 1 in Hs.
  assert (Hpow : 2 ^ (p + 1) <= 2 ^ Z.of_N (N.size m))
    by (apply Z.pow_le_mono_r; lia).
  rewrite Z.pow_add_r, Z.pow_1_r in Hpow by lia. lia.
Qed.

Lemma value_of_scaled_exact (neg : bool) (m : N) (e p : Z) :
  Z.of_N (N.size m) <= p ->
  exact_eqb (exact_of_mpfr (mpfr_init_set p (value_of_scaled neg m e p)))
            (ex_fin ((if neg then -1 else 1) * Z.of_N m) e) = true.
Proof.
  intros Hk. unfold value_of_scaled.
  destruct (N.eqb_spec m 0) as [->|Hm].
  - destruct neg; reflexivity.
  - unfold round_nearest_even.
    destruct (Z.leb_spec (Z.of_N (N.size m)) p) as [_|H]; [|lia].
    set (k := Z.of_N (N.size m)) in *.
    unfold exact_of_mpfr, mpfr_init_set. cbn [_mpfr_exp _mpfr_d _mpfr_sign _mpfr_prec
      v_exp v_limbs v_sign].
    unfold exact_eqb.
    replace (e - (p - k) + p - p) with (e - (p - k)) by lia.
    rewrite Z.min_l by lia.
    replace (e - (p - k) - (e - (p - k))) with 0 by lia.
    replace (e - (e - (p - k))) with (p - k) by lia.
    rewrite N.shiftl_mul_pow2, N2Z.inj_mul, N2Z.inj_pow, Z2N.id by lia.
    rewrite Z.eqb_eq. change (Z.of_N 2) with 2.
    rewrite Z.pow_0_r, Z.mul_1_r, Z.mul_assoc. reflexivity.
Qed.

(** An [int] is held exactly at its natural precision, and so is a
    [double]. *)
Lemma real_ctor_int_exact (x : Z) :
  - 2 ^ 31 <= x < 2 ^ 31 -> real_eq (real_ctor (Int x)) (Int x) = true.
Proof.
  intros Hx. unfold real_ctor. cbn [real_deduce_precision rv_value real_eq int_rv m_mpfr
    int_value]. unfold exact_of_int. cbn [int_value].
  replace x with ((if x <? 0 then -1 else 1) * Z.of_N (Z.to_N (Z.abs x))) at 3
    by (rewrite Z2N.id by lia; destruct (Z.ltb_spec x 0); lia).
  apply value_of_scaled_exact, size_le_of_lt_pow2; [lia|].
  rewrite Z2N.id by lia. lia.
Qed.

Lemma real_ctor_double_exact (neg : bool) (m : positive) (e : Z) :
  Z.pos m < 2 ^ 53 ->
  real_eq (real_ctor (dbl_fin neg m e)) (dbl_fin neg m e) = true.
Proof.
  intros Hm. unfold real_ctor. cbn [real_deduce_precision rv_value real_eq double_rv m_mpfr].
  unfold exact_of_double.
  replace (if neg then - Z.pos m else Z.pos m)
    with ((if neg then -1 else 1) * Z.of_N (N.pos m)) by (destruct neg; cbn; lia).
  apply value_of_scaled_exact, size_le_of_lt_pow2; [lia|]. exact Hm.
Qed.

(** X4: the real-construction law for [int]: the composite built from
    an [int] alone compares equal to it, from either side. *)
Lemma construct_int_equal (x : Z) :
  real_prec_check 32 = true ->
  - 2 ^ 31 <= x < 2 ^ 31 ->
  exists c : complex,
    complex_generic (Int x) = inr c /\ eq_complex_l c (Int x) = true
    /\ eq_complex_r (Int x) c = true.
Proof.
  intros Hp Hx.
  unfold complex_generic, is_rv_complex_interoperable, int_interoperable, complex_gtag_true.
  cbn [bind ret].
  change (real_get_prec (real_ctor (Int x))) with 32.
  unfold real_ctor_kind. rewrite (real_check_init_prec_ok _ Hp). cbn [bind ret].
  eexists. split; [reflexivity|].
  unfold eq_complex_r, dispatch_complex_equality_rev, eq_complex_l, dispatch_complex_equality,
    is_rv_complex_interoperable, int_interoperable, dispatch_complex_equality_rv.
  cbv zeta.
  cbn [m_mpc mpc_imagref im re_cref.ctor re_cref.deref re_cref.m_value mpc_realref re
       real_shallow_copy].
  change (mpfr_zero_p (m_mpfr {| m_mpfr := mpfr_init_set 32 (value_zero 1) |})) with 1.
  cbn [Z.eqb negb andb].
  replace {| m_mpfr := m_mpfr (real_ctor (Int x)) |} with (real_ctor (Int x)) by reflexivity.
  rewrite (real_ctor_int_exact x Hx). split; reflexivity.
Qed.

(** ** Further laws of the header *)

Lemma real_eta (r : real) : {| m_mpfr := m_mpfr r |} = r.
Proof. destruct r. reflexivity. Qed.

Lemma complex_eta (c : complex) :
  {| m_mpc := Build_mpc_struct_t (mpc_realref (m_mpc c)) (mpc_imagref (m_mpc c)) |} = c.
Proof. destruct c as [[zr zi]]. reflexivity. Qed.

Lemma complex_gtag_true_ok (T : Type) (rv : rv_complex_interoperable T) (x : T) :
  real_prec_check (real_deduce_precision x) = true ->
  complex_gtag_true x None = inr (built_from_rv x).
Proof.
  intros Hx. unfold complex_gtag_true. cbn [bind ret].
  change (real_get_prec (real_ctor x)) with (real_deduce_precision x).
  unfold real_ctor_kind. rewrite (real_check_init_prec_ok _ Hx). reflexivity.
Qed.

Lemma real_imag_ctor_impl_ok (T U : Type) (rvT : rv_complex_interoperable T)
    (rvU : rv_complex_interoperable U) (x : T) (y : U) (p : mpfr_prec_t) :
  real_prec_check p = true ->
  real_imag_ctor_impl x y p = inr (built_from_parts x y p).
Proof.
  intros Hp. unfold real_imag_ctor_impl.
  rewrite !(real_ctor_prec_ok _ _ _ _ Hp). reflexivity.
Qed.

Lemma dispatch_generic_assignment_false_ok (T : Type) (cv : cv_complex_interoperable T)
    (z : T) (t : complex) :
  real_prec_check (c_max (real_deduce_precision (c_real z))
                         (real_deduce_precision (c_imag z))) = true ->
  dispatch_generic_assignment_false z t
  = (inr tt, built_from_parts (c_real z) (c_imag z)
               (c_max (real_deduce_precision (c_real z))
                      (real_deduce_precision (c_imag z)))).
Proof.
  intros Hp. unfold dispatch_generic_assignment_false. cbv zeta.
  cbn [re_ref.deref re_ref.assign re_ref.m_value im_ref.deref im_ref.assign
       im_ref.m_value].
  rewrite (real_set_prec_ok _ _ Hp).
  cbn [re_ref.deref re_ref.assign re_ref.m_value im_ref.deref im_ref.assign
       im_ref.m_value].
  rewrite (real_set_prec_ok _ _ Hp).
  destruct t as [[zr zi]]. reflexivity.
Qed.

Lemma dispatch_generic_assignment_true_ok (T : Type) (rv : rv_complex_interoperable T)
    (x : T) (t : complex) :
  real_prec_check (real_deduce_precision x) = true ->
  exists t' : complex,
    dispatch_generic_assignment_true x t = (inr tt, t')
    /\ real_part t' = real_part (built_from_rv x)
    /\ mpfr_get_prec (mpc_imagref (m_mpc t')) = real_deduce_precision x
    /\ _mpfr_exp (mpc_imagref (m_mpc t')) = MPFR_EXP_ZERO
    /\ _mpfr_sign (mpc_imagref (m_mpc t')) = 1
    /\ is_valid t' = true.
Proof.
  intros Hx. unfold dispatch_generic_assignment_true. cbv zeta.
  cbn [re_ref.deref re_ref.assign re_ref.m_value im_ref.deref im_ref.assign
       im_ref.m_value].
  rewrite real_assign_prec, (real_set_prec_ok _ _ Hx).
  eexists. split; [reflexivity|].
  destruct t as [[zr zi]]. cbn. repeat split.
Qed.

(** The value of a [double] that is no NaN, with a significand of at
    most 53 bits. *)
Lemma double_value_exact (d : cpp_double) (p : mpfr_prec_t) :
  53 <= p ->
  double_wf d ->
  real_eq {| m_mpfr := mpfr_init_set p (rv_value d p) |} d = true.
Proof.
  intros Hp Hd. destruct d as [|s|s|s m e]; cbn [double_wf] in Hd.
  - contradiction.
  - destruct s; reflexivity.
  - destruct s; reflexivity.
  - cbn [real_eq rv_value double_rv m_mpfr]. unfold exact_of_double.
    replace (if s then - Z.pos m else Z.pos m)
      with ((if s then -1 else 1) * Z.of_N (N.pos m)) by (destruct s; cbn; lia).
    apply value_of_scaled_exact.
    transitivity 53; [|exact Hp].
    apply size_le_of_lt_pow2; [lia | exact Hd].
Qed.

Lemma int_value_exact (x : Z) (p : mpfr_prec_t) :
  32 <= p ->
  - 2 ^ 31 <= x < 2 ^ 31 ->
  real_eq {| m_mpfr := mpfr_init_set p (rv_value (Int x) p) |} (Int x) = true.
Proof.
  intros Hp Hx. cbn [real_eq rv_value int_rv m_mpfr int_value]. unfold exact_of_int.
  cbn [int_value].
  replace x with ((if x <? 0 then -1 else 1) * Z.of_N (Z.to_N (Z.abs x))) at 3
    by (rewrite Z2N.id by lia; destruct (Z.ltb_spec x 0); lia).
  apply value_of_scaled_exact.
  transitivity 32; [|exact Hp].
  apply size_le_of_lt_pow2; [lia|]. rewrite Z2N.id by lia. lia.
Qed.

(** ** Construction from a real-valued operand *)

(** C6, amended: the composite built from a real-valued [x] alone has
    as real part the [real] built from [x], that is [x] rounded to the
    precision chosen, and as imaginary part +0, both at the explicit
    precision when one is given and at the natural precision of [x]
    otherwise.  The composite compares equal to [x] exactly when its real
    part, the rounded [x], does.  That is so for every [int] and for
    every [double] other than NaN, at the natural precision and at every
    explicit precision that is no smaller; the composite built from a NaN
    holds a NaN and compares unequal to it. *)
Theorem real_construction :
  (forall (T : Type) (rv : rv_complex_interoperable T) (x : T) (p : complex_prec_t),
      real_prec_check (static_cast_prec p) = true ->
      exists c : complex,
        @complex_generic_prec T (true_type rv) x p = inr c
        /\ re (m_mpc c)
           = mpfr_init_set (static_cast_prec p) (rv_value x (static_cast_prec p))
        /\ real_ctor_prec x (static_cast_prec p) = inr {| m_mpfr := re (m_mpc c) |}
        /\ im (m_mpc c) = mpfr_init_set (static_cast_prec p) (value_zero 1)
        /\ real_ctor_kind real_kind.zero 1 (static_cast_prec p)
           = inr {| m_mpfr := im (m_mpc c) |}
        /\ _mpfr_exp (im (m_mpc c)) = MPFR_EXP_ZERO
        /\ _mpfr_sign (im (m_mpc c)) = 1
        /\ get_prec c = Some (static_cast_prec p)
        /\ @eq_complex_l T (true_type rv) c x = real_eq {| m_mpfr := re (m_mpc c) |} x)
  /\ (forall (T : Type) (rv : rv_complex_interoperable T) (x : T),
         real_prec_check (real_deduce_precision x) = true ->
         exists c : complex,
           @complex_generic T (true_type rv) x = inr c
           /\ re (m_mpc c)
              = mpfr_init_set (real_deduce_precision x)
                  (rv_value x (real_deduce_precision x))
           /\ {| m_mpfr := re (m_mpc c) |} = real_ctor x
           /\ im (m_mpc c) = mpfr_init_set (real_deduce_precision x) (value_zero 1)
           /\ real_ctor_kind real_kind.zero 1 (real_deduce_precision x)
              = inr {| m_mpfr := im (m_mpc c) |}
           /\ _mpfr_exp (im (m_mpc c)) = MPFR_EXP_ZERO
           /\ _mpfr_sign (im (m_mpc c)) = 1
           /\ get_prec c = Some (real_deduce_precision x)
           /\ @eq_complex_l T (true_type rv) c x = real_eq (real_ctor x) x)
  /\ (forall n : Z,
         - 2 ^ 31 <= n < 2 ^ 31 ->
         (real_prec_check 32 = true ->
          exists c : complex,
            complex_generic (Int n) = inr c
            /\ get_prec c = Some 32
            /\ real_eq {| m_mpfr := re (m_mpc c) |} (Int n) = true
            /\ eq_complex_l c (Int n) = true)
         /\ (forall p : mpfr_prec_t,
                real_prec_check p = true -> 32 <= p ->
                exists c : complex,
                  complex_generic_prec (Int n) (ComplexPrec p) = inr c
                  /\ get_prec c = Some p
                  /\ real_eq {| m_mpfr := re (m_mpc c) |} (Int n) = true
                  /\ eq_complex_l c (Int n) = true))
  /\ (forall d : cpp_double,
         double_wf d ->
         (real_prec_check 53 = true ->
          exists c : complex,
            complex_generic d = inr c
            /\ get_prec c = Some 53
            /\ real_eq {| m_mpfr := re (m_mpc c) |} d = true
            /\ eq_complex_l c d = true)
         /\ (forall p : mpfr_prec_t,
                real_prec_check p = true -> 53 <= p ->
                exists c : complex,
                  complex_generic_prec d (ComplexPrec p) = inr c
                  /\ get_prec c = Some p
                  /\ real_eq {| m_mpfr := re (m_mpc c) |} d = true
                  /\ eq_complex_l c d = true))
  /\ (real_prec_check 53 = true ->
      exists c : complex,
        complex_generic dbl_nan = inr c
        /\ _mpfr_exp (re (m_mpc c)) = MPFR_EXP_NAN
        /\ _mpfr_exp (im (m_mpc c)) = MPFR_EXP_ZERO
        /\ eq_complex_l c dbl_nan = false).
Proof.
  assert (Hprec : forall (T : Type) (rv : rv_complex_interoperable T) (x : T)
                    (p : mpfr_prec_t),
             real_prec_check p = true ->
             @complex_generic_prec T (true_type rv) x (ComplexPrec p)
             = inr {| m_mpc := Build_mpc_struct_t (mpfr_init_set p (rv_value x p))
                                                  (mpfr_init_set p (value_zero 1)) |}).
  { intros T rv x p Hp.
    unfold complex_generic_prec, is_rv_complex_interoperable, complex_gtag_true.
    cbn [static_cast_prec].
    rewrite (real_ctor_prec_ok _ _ _ _ Hp).
    unfold real_ctor_kind. rewrite (real_check_init_prec_ok _ Hp). reflexivity. }
  assert (Hded : forall (T : Type) (rv : rv_complex_interoperable T) (x : T),
             real_prec_check (real_deduce_precision x) = true ->
             @complex_generic T (true_type rv) x = inr (built_from_rv x)).
  { intros T rv x Hx. unfold complex_generic, is_rv_complex_interoperable.
    exact (complex_gtag_true_ok T rv x Hx). }
  assert (Heq : forall (T : Type) (rv : rv_complex_interoperable T) (x : T)
                  (p : mpfr_prec_t) (v : mpfr_value),
             @eq_complex_l T (true_type rv)
               {| m_mpc := Build_mpc_struct_t (mpfr_init_set p v)
                                              (mpfr_init_set p (value_zero 1)) |} x
             = real_eq {| m_mpfr := mpfr_init_set p v |} x).
  { intros T rv x p v. reflexivity. }
  split; [|split; [|split; [|split]]].
  - intros T rv x [p] Hp. cbn [static_cast_prec] in *.
    rewrite (Hprec T rv x p Hp). eexists. split; [reflexivity|].
    cbn [m_mpc re im]. split; [reflexivity|].
    split; [exact (real_ctor_prec_ok _ _ _ _ Hp)|]. split; [reflexivity|].
    split; [unfold real_ctor_kind; rewrite (real_check_init_prec_ok _ Hp); reflexivity|].
    split; [reflexivity|]. split; [reflexivity|].
    split; [unfold get_prec; cbn; now rewrite Z.eqb_refl|]. apply Heq.
  - intros T rv x Hx. rewrite (Hded T rv x Hx). eexists. split; [reflexivity|].
    unfold built_from_rv. cbn [m_mpc re im]. split; [reflexivity|].
    split; [reflexivity|]. split; [reflexivity|].
    split; [unfold real_ctor_kind; rewrite (real_check_init_prec_ok _ Hx); reflexivity|].
    split; [reflexivity|]. split; [reflexivity|].
    split; [unfold get_prec; cbn; now rewrite Z.eqb_refl|]. apply Heq.
  - intros n Hn. split.
    + intros H32.
      change (@complex_generic cpp_int int_interoperable (Int n))
        with (@complex_generic cpp_int (true_type int_rv) (Int n)).
      rewrite (Hded cpp_int int_rv (Int n) H32). eexists. split; [reflexivity|].
      unfold built_from_rv. cbn [m_mpc re im real_deduce_precision int_rv].
      split; [reflexivity|].
      assert (He := int_value_exact n 32 (Z.le_refl 32) Hn).
      split; [exact He|].
      change (@eq_complex_l cpp_int int_interoperable)
        with (@eq_complex_l cpp_int (true_type int_rv)).
      rewrite Heq. exact He.
    + intros p Hp H32.
      change (@complex_generic_prec cpp_int int_interoperable (Int n))
        with (@complex_generic_prec cpp_int (true_type int_rv) (Int n)).
      rewrite (Hprec cpp_int int_rv (Int n) p Hp). eexists. split; [reflexivity|].
      cbn [m_mpc re im].
      split; [unfold get_prec; cbn; now rewrite Z.eqb_refl|].
      assert (He := int_value_exact n p H32 Hn).
      split; [exact He|].
      change (@eq_complex_l cpp_int int_interoperable)
        with (@eq_complex_l cpp_int (true_type int_rv)).
      rewrite Heq. exact He.
  - intros d Hd. split.
    + intros H53.
      change (@complex_generic cpp_double double_interoperable d)
        with (@complex_generic cpp_double (true_type double_rv) d).
      rewrite (Hded cpp_double double_rv d H53). eexists. split; [reflexivity|].
      unfold built_from_rv. cbn [m_mpc re im real_deduce_precision double_rv].
      split; [reflexivity|].
      assert (He := double_value_exact d 53 (Z.le_refl 53) Hd).
      split; [exact He|].
      change (@eq_complex_l cpp_double double_interoperable)
        with (@eq_complex_l cpp_double (true_type double_rv)).
      rewrite Heq. exact He.
    + intros p Hp H53.
      change (@complex_generic_prec cpp_double double_interoperable d)
        with (@complex_generic_prec cpp_double (true_type double_rv) d).
      rewrite (Hprec cpp_double double_rv d p Hp). eexists. split; [reflexivity|].
      cbn [m_mpc re im].
      split; [unfold get_prec; cbn; now rewrite Z.eqb_refl|].
      assert (He := double_value_exact d p H53 Hd).
      split; [exact He|].
      change (@eq_complex_l cpp_double double_interoperable)
        with (@eq_complex_l cpp_double (true_type double_rv)).
      rewrite Heq. exact He.
  - intros H53.
    change (@complex_generic cpp_double double_interoperable dbl_nan)
      with (@complex_generic cpp_double (true_type double_rv) dbl_nan).
    rewrite (Hded cpp_double double_rv dbl_nan H53). eexists. split; [reflexivity|].
    repeat split.
Qed.

(** X1: for a complex-valued operand [z], [c == z] holds iff the real
    part of [c] compares equal to [z.real()] and the imaginary part to
    [z.imag()]; [z == c] is [c == z], and [!=] is the negation of [==] on
    either side.  The parts of [c] are the structs its representation
    holds in the fields [re] and [im]. *)
Theorem equality_complex_valued (T : Type) (cv : cv_complex_interoperable T)
    (c : complex) (z : T) :
  (@eq_complex_l T (false_type cv) c z = true
   <-> real_eq {| m_mpfr := re (m_mpc c) |} (c_real z) = true
       /\ real_eq {| m_mpfr := im (m_mpc c) |} (c_imag z) = true)
  /\ @eq_complex_r T (false_type cv) z c = @eq_complex_l T (false_type cv) c z
  /\ @neq_complex_l T (false_type cv) c z = negb (@eq_complex_l T (false_type cv) c z)
  /\ @neq_complex_r T (false_type cv) z c = @neq_complex_l T (false_type cv) c z.
Proof.
  unfold neq_complex_r, neq_complex_l, eq_complex_r, eq_complex_l,
    dispatch_complex_equality_rev, dispatch_complex_equality,
    is_rv_complex_interoperable, dispatch_complex_equality_cv.
  cbv zeta. split; [|repeat split].
  destruct c as [[zr zi]].
  cbn [m_mpc re im mpc_imagref mpc_realref re_cref.ctor re_cref.deref re_cref.m_value
       im_cref.ctor im_cref.deref im_cref.m_value real_shallow_copy].
  now rewrite andb_true_iff.
Qed.

(** X2: the binary constructor with an explicit precision, whatever the
    two operands are.  When it returns, the precision was a legal one,
    both parts have exactly that precision and are the reals built from
    the two operands, and the composite is valid; when building the real
    part throws, that exception is the constructor's.  With real-valued
    operands it returns for every legal precision, and the constructor
    from a complex-valued operand and a precision is the binary one on
    its two components. *)
Theorem explicit_precision_law (T U : Type) (pcT : real_prec_constructible T)
    (pcU : real_prec_constructible U) (x : T) (y : U) (p : complex_prec_t) :
  (forall c : complex,
      complex_re_im_prec x y p = inr c ->
      real_prec_check (static_cast_prec p) = true
      /\ get_prec c = Some (static_cast_prec p)
      /\ is_valid c = true
      /\ real_ctor_prec x (static_cast_prec p) = inr (real_part c)
      /\ real_ctor_prec y (static_cast_prec p) = inr (imag_part c))
  /\ (forall e : exception,
         real_ctor_prec x (static_cast_prec p) = inl e -> complex_re_im_prec x y p = inl e)
  /\ (forall (V W : Type) (rvV : rv_complex_interoperable V)
             (rvW : rv_complex_interoperable W) (v : V) (w : W),
         real_prec_check (static_cast_prec p) = true ->
         complex_re_im_prec v w p = inr (built_from_parts v w (static_cast_prec p)))
  /\ (forall (V : Type) (cv : cv_complex_interoperable V) (z : V),
         @complex_generic_prec V (false_type cv) z p
         = complex_re_im_prec (c_real z) (c_imag z) p).
Proof.
  destruct p as [p]. cbn [static_cast_prec]. split; [|split; [|split]].
  - intros c Hc. unfold complex_re_im_prec, real_imag_ctor_impl in Hc.
    cbn [static_cast_prec] in Hc.
    destruct (real_ctor_prec x p) as [e|rp] eqn:Ex; [discriminate Hc|].
    destruct (real_ctor_prec y p) as [e|ip] eqn:Ey; [discriminate Hc|].
    cbn in Hc. injection Hc as <-.
    unfold real_part, imag_part. cbn. rewrite !real_eta.
    assert (Hp : real_prec_check p = true).
    { unfold real_ctor_prec, real_check_init_prec in Ex.
      destruct (real_prec_check p); [reflexivity | discriminate Ex]. }
    pose proof (real_ctor_prec_prec _ _ _ _ _ Ex) as Hx.
    pose proof (real_ctor_prec_prec _ _ _ _ _ Ey) as Hy.
    unfold real_get_prec in Hx, Hy.
    split; [exact Hp|]. split.
    { unfold get_prec. cbn. rewrite Hx, Hy, Z.eqb_refl. reflexivity. }
    split; [|split; reflexivity].
    unfold real_ctor_prec in Ex. rewrite (real_check_init_prec_ok _ Hp) in Ex.
    cbn [bind] in Ex. destruct (init_value x p); [discriminate Ex|].
    injection Ex as <-. reflexivity.
  - intros e He. unfold complex_re_im_prec, real_imag_ctor_impl.
    cbn [static_cast_prec]. rewrite He. reflexivity.
  - intros V W rvV rvW v w Hp. unfold complex_re_im_prec. cbn [static_cast_prec].
    now apply real_imag_ctor_impl_ok.
  - reflexivity.
Qed.

(** X3: the composite built from a complex-valued [z] alone has as parts
    the reals built from [z.real()] and [z.imag()] at the larger of their
    two natural precisions, is valid, and compares equal to [z] exactly
    when both conversions are exact. *)
Theorem construction_complex_valued (T : Type) (cv : cv_complex_interoperable T) (z : T) :
  let p := Z.max (real_deduce_precision (c_real z)) (real_deduce_precision (c_imag z)) in
  real_prec_check p = true ->
  exists c : complex,
    @complex_generic T (false_type cv) z = inr c
    /\ real_ctor_prec (c_real z) p = inr (real_part c)
    /\ real_ctor_prec (c_imag z) p = inr (imag_part c)
    /\ get_prec c = Some p
    /\ is_valid c = true
    /\ @eq_complex_l T (false_type cv) c z
       = real_eq (real_part c) (c_real z) && real_eq (imag_part c) (c_imag z).
Proof.
  intros p Hp. subst p. rewrite <- c_max_is_max in Hp |- *.
  unfold complex_generic, is_rv_complex_interoperable, complex_gtag_false, complex_re_im.
  rewrite (real_imag_ctor_impl_ok _ _ _ _ _ _ _ Hp).
  eexists. split; [reflexivity|].
  rewrite !(real_ctor_prec_ok _ _ _ _ Hp).
  unfold get_prec. cbn. rewrite Z.eqb_refl. repeat split.
Qed.

(** X5: a composite built from a [std::complex<double>] whose two
    components are numbers compares equal to it, from either side; one
    with a NaN component compares unequal to it. *)
Theorem std_complex_round_trip (z : std_complex_double) :
  real_prec_check 53 = true ->
  exists c : complex,
    complex_generic z = inr c
    /\ get_prec c = Some 53
    /\ (double_wf (std_real z) -> double_wf (std_imag z) ->
        eq_complex_l c z = true /\ eq_complex_r z c = true)
    /\ (std_real z = dbl_nan \/ std_imag z = dbl_nan ->
        eq_complex_l c z = false /\ neq_complex_l c z = true).
Proof.
  intros Hp.
  unfold complex_generic, is_rv_complex_interoperable, std_complex_interoperable,
    complex_gtag_false, complex_re_im.
  change (c_max (real_deduce_precision (c_real z)) (real_deduce_precision (c_imag z)))
    with 53.
  rewrite (real_imag_ctor_impl_ok _ _ _ _ _ _ _ Hp).
  eexists. split; [reflexivity|]. split; [reflexivity|].
  unfold neq_complex_l, eq_complex_r, dispatch_complex_equality_rev, eq_complex_l,
    dispatch_complex_equality, is_rv_complex_interoperable, dispatch_complex_equality_cv.
  cbv zeta.
  cbn [built_from_parts m_mpc re_cref.ctor re_cref.deref re_cref.m_value
       im_cref.ctor im_cref.deref im_cref.m_value mpc_realref mpc_imagref re im
       real_shallow_copy c_real c_imag std_complex_cv value_type_rv].
  split.
  - intros Hre Him.
    assert (H53 : 53 <= 53) by lia.
    split; apply andb_true_iff; split;
      first [exact (double_value_exact _ 53 H53 Hre) | exact (double_value_exact _ 53 H53 Him)].
  - destruct z as [zr zi]. cbn [std_real std_imag].
    unfold real_shallow_copy. intros [-> | ->].
    + split; reflexivity.
    + rewrite andb_comm. split; reflexivity.
Qed.

(** X6: changing the precision.  The unchecked variants never throw and
    the checked ones accept every legal precision; after either change
    both parts have exactly the new precision, so [get_prec] returns it;
    [set_prec] leaves two NaN, and of two [set_prec] in a row only the
    last one shows. *)
Theorem precision_change (p : mpfr_prec_t) (this : complex) :
  (fst (set_prec_impl false p this) = inr tt
   /\ fst (prec_round_impl false p this) = inr tt)
  /\ (real_prec_check p = true ->
      fst (set_prec_impl true p this) = inr tt
      /\ fst (prec_round_impl true p this) = inr tt)
  /\ (forall (Check : bool) (t' : complex),
         set_prec_impl Check p this = (inr tt, t') ->
         get_prec t' = Some p
         /\ _mpfr_exp (mpc_realref (m_mpc t')) = MPFR_EXP_NAN
         /\ _mpfr_exp (mpc_imagref (m_mpc t')) = MPFR_EXP_NAN
         /\ forall q : mpfr_prec_t,
              snd (set_prec_impl false q t') = snd (set_prec_impl false q this))
  /\ (forall (Check : bool) (t' : complex),
         prec_round_impl Check p this = (inr tt, t') ->
         get_prec t' = Some p).
Proof.
  split; [split; reflexivity|]. split; [|split].
  - intros Hp. unfold set_prec_impl, prec_round_impl, check_set_prec.
    rewrite Hp. split; reflexivity.
  - intros Check t' H. unfold set_prec_impl in H.
    destruct (if Check then check_set_prec p else ret p) as [e|q] eqn:E; [discriminate H|].
    assert (q = p) as ->.
    { destruct Check; [|now injection E].
      unfold check_set_prec in E. destruct (negb (real_prec_check p)); [discriminate E|].
      now injection E. }
    injection H as <-. unfold get_prec. cbn. rewrite Z.eqb_refl. repeat split.
  - intros Check t' H. unfold prec_round_impl in H.
    destruct (if Check then check_set_prec p else ret p) as [e|q] eqn:E; [discriminate H|].
    assert (q = p) as ->.
    { destruct Check; [|now injection E].
      unfold check_set_prec in E. destruct (negb (real_prec_check p)); [discriminate E|].
      now injection E. }
    injection H as <-. unfold get_prec. cbn. rewrite Z.eqb_refl. reflexivity.
Qed.

(** X7: validity through the operations of the header.  Every generic
    and every binary constructor that returns, with or without an
    explicit precision, yields a valid composite; on a valid composite
    generic assignment, the generic setter and both precision changes
    leave a valid one, whether they return or throw.  Move construction
    yields an object as valid as its source was and leaves the source
    invalid.  Move assignment and [swap] exchange the validity of their
    two operands, so that move assignment from a moved-from object leaves
    the target invalid. *)
Theorem validity_kept :
  (forall (T : Type) (tag : complex_interoperable T) (x : T) (c : complex),
      complex_generic x = inr c -> is_valid c = true)
  /\ (forall (T : Type) (tag : complex_interoperable T) (x : T) (p : complex_prec_t)
             (c : complex),
         complex_generic_prec x p = inr c -> is_valid c = true)
  /\ (forall (T U : Type) (rvT : rv_complex_interoperable T)
             (rvU : rv_complex_interoperable U) (x : T) (y : U) (c : complex),
         complex_re_im x y = inr c -> is_valid c = true)
  /\ (forall (T U : Type) (pcT : real_prec_constructible T)
             (pcU : real_prec_constructible U) (x : T) (y : U) (p : complex_prec_t)
             (c : complex),
         complex_re_im_prec x y p = inr c -> is_valid c = true)
  /\ (forall t : complex,
         is_valid t = true ->
         (forall (T : Type) (tag : complex_interoperable T) (x : T),
             is_valid (snd (assign x t)) = true /\ is_valid (set x t) = true)
         /\ (forall (Check : bool) (p : mpfr_prec_t),
                is_valid (snd (set_prec_impl Check p t)) = true
                /\ is_valid (snd (prec_round_impl Check p t)) = true)
         /\ is_valid (fst (complex_move t)) = true
         /\ is_valid (snd (complex_move t)) = false
         /\ (forall b : complex,
                is_valid (fst (move_assign b (snd (complex_move t)))) = false
                /\ is_valid (snd (move_assign b (snd (complex_move t)))) = is_valid b))
  /\ (forall a b : complex,
         is_valid (fst (complex_move a)) = is_valid a
         /\ is_valid (snd (complex_move a)) = false
         /\ is_valid (fst (move_assign b a)) = is_valid a
         /\ is_valid (snd (move_assign b a)) = is_valid b
         /\ is_valid (fst (swap a b)) = is_valid b
         /\ is_valid (snd (swap a b)) = is_valid a).
Proof.
  assert (Himpl : forall (T U : Type) (pcT : real_prec_constructible T)
                    (pcU : real_prec_constructible U) (x : T) (y : U)
                    (p : mpfr_prec_t) (c : complex),
             real_imag_ctor_impl x y p = inr c -> is_valid c = true).
  { intros T U pcT pcU x y p c H. unfold real_imag_ctor_impl in H.
    destruct (real_ctor_prec x p) as [e|rp] eqn:Ex; [discriminate H|].
    destruct (real_ctor_prec y p) as [e|ip] eqn:Ey; [discriminate H|].
    cbn in H. injection H as <-.
    unfold real_ctor_prec in Ex. inv_bind Ex. injection Ex as <-. reflexivity. }
  assert (Htrue : forall (T : Type) (rv : rv_complex_interoperable T) (x : T)
                    (args : option complex_prec_t) (c : complex),
             complex_gtag_true x args = inr c -> is_valid c = true).
  { intros T rv x args c H. unfold complex_gtag_true in H. destruct args as [p|].
    - destruct (real_ctor_prec x (static_cast_prec p)) as [e|r] eqn:Er; [discriminate H|].
      destruct (real_ctor_kind real_kind.zero 1 (static_cast_prec p)) as [e|i];
        [discriminate H|].
      cbn in H. injection H as <-.
      unfold real_ctor_prec in Er. inv_bind Er. injection Er as <-. reflexivity.
    - cbn [bind ret] in H.
      destruct (real_ctor_kind real_kind.zero 1 (real_get_prec (real_ctor x))) as [e|i];
        [discriminate H|].
      cbn in H. injection H as <-. reflexivity. }
  split; [|split; [|split; [|split; [|split]]]].
  - intros T [rv|cv] x c H; unfold complex_generic, is_rv_complex_interoperable in H.
    + exact (Htrue _ _ _ _ _ H).
    + exact (Himpl _ _ _ _ _ _ _ _ H).
  - intros T [rv|cv] x p c H; unfold complex_generic_prec, is_rv_complex_interoperable in H.
    + exact (Htrue _ _ _ _ _ H).
    + exact (Himpl _ _ _ _ _ _ _ _ H).
  - intros T U rvT rvU x y c H. exact (Himpl _ _ _ _ _ _ _ _ H).
  - intros T U pcT pcU x y p c H. exact (Himpl _ _ _ _ _ _ _ _ H).
  - intros [[zr zi]] Ht. unfold is_valid in Ht. cbn in Ht.
    split; [|split; [|split; [|split]]].
    + intros T [rv|cv] x; unfold assign, set, is_rv_complex_interoperable.
      * split; [|reflexivity].
        unfold dispatch_generic_assignment_true. cbv zeta.
        destruct (real_set_prec _ _); reflexivity.
      * split; [|reflexivity].
        unfold dispatch_generic_assignment_false. cbv zeta.
        destruct (real_set_prec _ (re_ref.deref _)) as [e|r] eqn:Er.
        -- unfold is_valid. cbn. exact Ht.
        -- cbn [re_ref.deref re_ref.assign re_ref.m_value].
           unfold real_set_prec in Er. inv_bind Er. injection Er as <-.
           destruct (real_set_prec _ (im_ref.deref _)); reflexivity.
    + intros Check p. unfold set_prec_impl, prec_round_impl.
      destruct (if Check then check_set_prec p else ret p); cbn [snd];
        split; first [reflexivity | unfold is_valid; cbn; exact Ht].
    + unfold is_valid. cbn. exact Ht.
    + reflexivity.
    + intros [[br bi]]. split; reflexivity.
  - intros [[ar ai]] [[br bi]]. repeat split.
Qed.

(** X8: generic assignment leaves what construction builds.  After
    [t = x] with a real-valued [x], [t] has the real part, the precision
    and the +0 imaginary part of [complex(x)]; after [t = z] with a
    complex-valued [z], [t] is [complex(z)].  Nothing of what [t] held
    before is left. *)
Theorem assignment_is_construction (t : complex) :
  (forall (T : Type) (rv : rv_complex_interoperable T) (x : T),
      real_prec_check (real_deduce_precision x) = true ->
      exists c t' : complex,
        @complex_generic T (true_type rv) x = inr c
        /\ @assign T (true_type rv) x t = (inr tt, t')
        /\ real_part t' = real_part c
        /\ get_prec t' = get_prec c
        /\ get_prec t' = Some (real_deduce_precision x)
        /\ mpfr_zero_p (mpc_imagref (m_mpc t')) = mpfr_zero_p (mpc_imagref (m_mpc c))
        /\ _mpfr_sign (mpc_imagref (m_mpc t')) = _mpfr_sign (mpc_imagref (m_mpc c))
        /\ is_valid t' = true)
  /\ (forall (T : Type) (cv : cv_complex_interoperable T) (z : T),
         real_prec_check (Z.max (real_deduce_precision (c_real z))
                                (real_deduce_precision (c_imag z))) = true ->
         exists c : complex,
           @complex_generic T (false_type cv) z = inr c
           /\ @assign T (false_type cv) z t = (inr tt, c)).
Proof.
  split.
  - intros T rv x Hx.
    destruct (dispatch_generic_assignment_true_ok T rv x t Hx)
      as (t' & Ht & Hre & Hprec & Hexp & Hsign & Hvalid).
    exists (built_from_rv x), t'.
    unfold complex_generic, assign, is_rv_complex_interoperable.
    split; [exact (complex_gtag_true_ok T rv x Hx)|].
    split; [exact Ht|]. split; [exact Hre|].
    assert (Hget : get_prec t' = Some (real_deduce_precision x)).
    { unfold get_prec. rewrite Hprec.
      replace (mpfr_get_prec (mpc_realref (m_mpc t'))) with (real_deduce_precision x)
        by (change (mpfr_get_prec (mpc_realref (m_mpc t')))
              with (real_get_prec (real_part t')); rewrite Hre; reflexivity).
      now rewrite Z.eqb_refl. }
    split; [rewrite Hget; unfold get_prec; cbn; now rewrite Z.eqb_refl|].
    split; [exact Hget|].
    split; [unfold mpfr_zero_p; rewrite Hexp; reflexivity|].
    split; [rewrite Hsign; reflexivity | exact Hvalid].
  - intros T cv z Hp. rewrite <- c_max_is_max in Hp.
    eexists. unfold complex_generic, assign, is_rv_complex_interoperable,
      complex_gtag_false, complex_re_im.
    split; [exact (real_imag_ctor_impl_ok _ _ _ _ _ _ _ Hp)|].
    exact (dispatch_generic_assignment_false_ok T cv z t Hp).
Qed.

(** X9: the generic setter is idempotent, and setting a composite from
    the value it has just been assigned changes nothing. *)
Theorem set_idempotent (T : Type) (tag : complex_interoperable T) (x : T) (t : complex) :
  set x (set x t) = set x t
  /\ (forall t' : complex, assign x t = (inr tt, t') -> set x t' = t').
Proof.
  destruct t as [[zr zi]]. split.
  - unfold set, is_rv_complex_interoperable. destruct tag as [rv|cv]; reflexivity.
  - intros t'. unfold assign, set, is_rv_complex_interoperable. destruct tag as [rv|cv].
    + unfold dispatch_generic_assignment_true. cbv zeta.
      destruct (real_set_prec _ _) as [e|r] eqn:E; intros H; [discriminate H|].
      injection H as <-.
      unfold real_set_prec in E. inv_bind E. injection E as <-. reflexivity.
    + unfold dispatch_generic_assignment_false. cbv zeta.
      destruct (real_set_prec _ (re_ref.deref _)) as [e|r] eqn:Er; intros H;
        [discriminate H|].
      cbn [re_ref.deref re_ref.assign re_ref.m_value] in H.
      destruct (real_set_prec _ (im_ref.deref _)) as [e|i] eqn:Ei; [discriminate H|].
      injection H as <-.
      unfold real_set_prec in Er, Ei. inv_bind Er. inv_bind Ei.
      injection Er as <-. injection Ei as <-. reflexivity.
Qed.

(** X10: a composite of at least 32 bits set from an [int] compares
    equal to that [int], from either side. *)
Theorem set_int_equal (x : Z) (t : complex) :
  32 <= mpfr_get_prec (mpc_realref (m_mpc t)) ->
  - 2 ^ 31 <= x < 2 ^ 31 ->
  eq_complex_l (set (Int x) t) (Int x) = true
  /\ eq_complex_r (Int x) (set (Int x) t) = true.
Proof.
  intros Hp Hx. destruct t as [[zr zi]].
  unfold eq_complex_r, dispatch_complex_equality_rev, eq_complex_l,
    dispatch_complex_equality, is_rv_complex_interoperable, int_interoperable,
    dispatch_complex_equality_rv, set, set_impl_true.
  cbv zeta.
  assert (E : real_eq {| m_mpfr := mpfr_init_set (_mpfr_prec zr)
                                     (rv_value (Int x) (_mpfr_prec zr)) |} (Int x) = true)
    by (apply int_value_exact; [exact Hp | exact Hx]).
  split; apply andb_true_iff; split; first [reflexivity | exact E].
Qed.

(** X11: read-write views compose.  A view scope that mutates nothing
    leaves the composite as it was; two scopes on the same part amount to
    one scope with the two mutations in a row; scopes on the two parts
    commute; and holding both views at once is holding one after the
    other. *)
Theorem views_compose (f g : real -> real) (c : complex) :
  fst (re_ref_scope (fun r => r) c) = c
  /\ fst (im_ref_scope (fun r => r) c) = c
  /\ fst (re_ref_scope g (fst (re_ref_scope f c))) = fst (re_ref_scope (fun r => g (f r)) c)
  /\ fst (im_ref_scope g (fst (im_ref_scope f c))) = fst (im_ref_scope (fun r => g (f r)) c)
  /\ fst (im_ref_scope g (fst (re_ref_scope f c)))
     = fst (re_ref_scope f (fst (im_ref_scope g c)))
  /\ re_im_ref_scope f g c = fst (im_ref_scope g (fst (re_ref_scope f c))).
Proof.
  destruct c as [[zr zi]].
  unfold re_im_ref_scope, re_ref_scope, im_ref_scope. cbn.
  unfold real_shallow_copy. rewrite !real_eta. repeat split.
Qed.

(** X12: moves compose.  Moving a composite through two objects in a row
    delivers it unchanged; the new object is valid exactly when the
    source was; the moved-from source keeps its two precisions and its
    imaginary part; and after [b = move(a)] followed by [a = move(b)]
    each of the two objects holds its own representation again.  Move
    assignment does what [swap] does, and two [swap] in a row undo each
    other. *)
Theorem move_composition (a b : complex) :
  fst (complex_move (fst (complex_move a))) = a
  /\ is_valid (fst (complex_move a)) = is_valid a
  /\ get_prec (snd (complex_move a)) = get_prec a
  /\ imag_part (snd (complex_move a)) = imag_part a
  /\ is_valid (fst (complex_move (snd (complex_move a)))) = false
  /\ move_assign (snd (move_assign b a)) (fst (move_assign b a)) = (a, b)
  /\ is_valid (fst (move_assign (snd (complex_move a)) b)) = is_valid b
  /\ move_assign b a = swap b a
  /\ swap (fst (swap a b)) (snd (swap a b)) = (a, b).
Proof.
  destruct a as [[zr zi]], b as [zb]. cbn. repeat split.
Qed.

(** X18: with an explicit precision, the composite built from a
    real-valued [x] alone is the one built from [x] and the [int] 0, and
    the two constructors throw the same exception when they throw. *)
Theorem unary_is_binary_with_zero (T : Type) (rv : rv_complex_interoperable T)
    (x : T) (p : complex_prec_t) :
  @complex_generic_prec T (true_type rv) x p = complex_re_im_prec x (Int 0) p.
Proof.
  destruct p as [p].
  unfold complex_generic_prec, is_rv_complex_interoperable, complex_gtag_true,
    complex_re_im_prec, real_imag_ctor_impl.
  cbn [static_cast_prec].
  unfold real_ctor_kind, real_ctor_prec, real_check_init_prec.
  destruct (negb (real_prec_check p)); reflexivity.
Qed.

(** X17: after [t = n] with an [int] [n], [t == n] holds and [t] has 32
    bits; after [t = z] with a [std::complex<double>] [z] whose
    components are numbers, [t == z] holds and [t] has 53 bits. *)
Theorem assign_then_equal (t : complex) :
  (forall x : Z,
      real_prec_check 32 = true ->
      - 2 ^ 31 <= x < 2 ^ 31 ->
      exists t' : complex,
        assign (Int x) t = (inr tt, t')
        /\ eq_complex_l t' (Int x) = true
        /\ get_prec t' = Some 32)
  /\ (forall z : std_complex_double,
         real_prec_check 53 = true ->
         double_wf (std_real z) -> double_wf (std_imag z) ->
         exists t' : complex,
           assign z t = (inr tt, t')
           /\ eq_complex_l t' z = true
           /\ get_prec t' = Some 53).
Proof.
  split.
  - intros x Hp Hx.
    destruct (dispatch_generic_assignment_true_ok cpp_int int_rv (Int x) t Hp)
      as (t' & Ht & Hre & Hprec & Hexp & _ & _).
    exists t'. split; [exact Ht|].
    assert (H32 : 32 <= 32) by lia.
    split.
    + unfold eq_complex_l, dispatch_complex_equality, is_rv_complex_interoperable,
        int_interoperable, dispatch_complex_equality_rv.
      cbv zeta. apply andb_true_iff. split.
      * unfold mpfr_zero_p. rewrite Hexp. reflexivity.
      * change (re_cref.deref (re_cref.ctor t')) with (real_part t'). rewrite Hre.
        exact (int_value_exact x 32 H32 Hx).
    + unfold get_prec. rewrite Hprec.
      change (mpfr_get_prec (mpc_realref (m_mpc t'))) with (real_get_prec (real_part t')).
      rewrite Hre. reflexivity.
  - intros z Hp Hre Him.
    eexists. split.
    + exact (dispatch_generic_assignment_false_ok _ std_complex_cv z t Hp).
    + assert (H53 : 53 <= 53) by lia.
      split; [|reflexivity].
      unfold eq_complex_l, dispatch_complex_equality, is_rv_complex_interoperable,
        std_complex_interoperable, dispatch_complex_equality_cv.
      cbv zeta. apply andb_true_iff.
      split; first [exact (double_value_exact _ 53 H53 Hre)
                   | exact (double_value_exact _ 53 H53 Him)].
Qed.

End Complex.

(** ** Laws of the compile-time predicates *)

Lemma conjunction_value (X : Type) (value : X -> bool) (bs : list X) :
  type_traits.value_of value (type_traits.conjunction value bs) = forallb value bs.
Proof.
  induction bs as [|b1 bn IH]; [reflexivity|].
  destruct bn as [|b2 bn].
  - cbn. now rewrite andb_true_r.
  - change (type_traits.conjunction value (b1 :: b2 :: bn))
      with (type_traits.conditional (negb (Bool.eqb (value b1) false))
              (type_traits.conjunction value (b2 :: bn)) (type_traits.argument b1)).
    change (forallb value (b1 :: b2 :: bn)) with (value b1 && forallb value (b2 :: bn)).
    rewrite <- IH. unfold type_traits.conditional.
    destruct (value b1) eqn:E; cbn; [reflexivity | exact E].
Qed.

Lemma disjunction_value (X : Type) (value : X -> bool) (bs : list X) :
  type_traits.value_of value (type_traits.disjunction value bs) = existsb value bs.
Proof.
  induction bs as [|b1 bn IH]; [reflexivity|].
  destruct bn as [|b2 bn].
  - cbn. now rewrite orb_false_r.
  - change (type_traits.disjunction value (b1 :: b2 :: bn))
      with (type_traits.conditional (negb (Bool.eqb (value b1) false))
              (type_traits.argument b1) (type_traits.disjunction value (b2 :: bn))).
    change (existsb value (b1 :: b2 :: bn)) with (value b1 || existsb value (b2 :: bn)).
    rewrite <- IH. unfold type_traits.conditional.
    destruct (value b1) eqn:E; cbn; [exact E | reflexivity].
Qed.

Lemma conjunction_v_forallb (bs : list bool) :
  type_traits.conjunction_v bs = forallb id bs.
Proof. apply conjunction_value. Qed.

Lemma disjunction_v_existsb (bs : list bool) :
  type_traits.disjunction_v bs = existsb id bs.
Proof. apply disjunction_value. Qed.

(** X13: [conjunction] and [disjunction] compute the logical "and" and
    "or" of the [value]s of their arguments, and they short-circuit:
    [conjunction] inherits from its first argument whose value is false,
    [disjunction] from its first argument whose value is true, and each
    from its last argument when there is no such one.  [negation]
    exchanges the two. *)
Theorem conjunction_disjunction (X : Type) (value : X -> bool) (bs : list X) :
  type_traits.value_of value (type_traits.conjunction value bs) = forallb value bs
  /\ type_traits.value_of value (type_traits.disjunction value bs) = existsb value bs
  /\ (forall b : X,
         find (fun b => negb (value b)) bs = Some b ->
         type_traits.conjunction value bs = type_traits.argument b)
  /\ (forall b : X,
         find value bs = Some b ->
         type_traits.disjunction value bs = type_traits.argument b)
  /\ (forall b : X,
         bs <> [] ->
         find (fun b => negb (value b)) bs = None ->
         type_traits.conjunction value bs = type_traits.argument (last bs b))
  /\ (forall b : X,
         bs <> [] ->
         find value bs = None ->
         type_traits.disjunction value bs = type_traits.argument (last bs b))
  /\ type_traits.negation (type_traits.conjunction_v (map value bs))
     = type_traits.disjunction_v (map type_traits.negation (map value bs)).
Proof.
  split; [apply conjunction_value|]. split; [apply disjunction_value|].
  split; [|split; [|split; [|split]]].
  - induction bs as [|b1 bn IH]; intros b Hb; [discriminate Hb|].
    cbn [find] in Hb. destruct bn as [|b2 bn].
    + destruct (value b1); cbn in Hb; [discriminate Hb|]. now injection Hb as <-.
    + change (type_traits.conjunction value (b1 :: b2 :: bn))
        with (type_traits.conditional (negb (Bool.eqb (value b1) false))
                (type_traits.conjunction value (b2 :: bn)) (type_traits.argument b1)).
      destruct (value b1); cbn [negb] in Hb; cbn.
      * exact (IH b Hb).
      * now injection Hb as <-.
  - induction bs as [|b1 bn IH]; intros b Hb; [discriminate Hb|].
    cbn [find] in Hb. destruct bn as [|b2 bn].
    + destruct (value b1); cbn in Hb; [|discriminate Hb]. now injection Hb as <-.
    + change (type_traits.disjunction value (b1 :: b2 :: bn))
        with (type_traits.conditional (negb (Bool.eqb (value b1) false))
                (type_traits.argument b1) (type_traits.disjunction value (b2 :: bn))).
      destruct (value b1); cbn.
      * now injection Hb as <-.
      * exact (IH b Hb).
  - induction bs as [|b1 bn IH]; intros b Hne Hb; [contradiction|].
    cbn [find] in Hb. destruct bn as [|b2 bn]; [reflexivity|].
    change (type_traits.conjunction value (b1 :: b2 :: bn))
      with (type_traits.conditional (negb (Bool.eqb (value b1) false))
              (type_traits.conjunction value (b2 :: bn)) (type_traits.argument b1)).
    destruct (value b1); cbn [negb] in Hb; [|discriminate Hb].
    cbn [Bool.eqb negb type_traits.conditional].
    rewrite (IH b); [reflexivity | discriminate | exact Hb].
  - induction bs as [|b1 bn IH]; intros b Hne Hb; [contradiction|].
    cbn [find] in Hb. destruct bn as [|b2 bn]; [reflexivity|].
    change (type_traits.disjunction value (b1 :: b2 :: bn))
      with (type_traits.conditional (negb (Bool.eqb (value b1) false))
              (type_traits.argument b1) (type_traits.disjunction value (b2 :: bn))).
    destruct (value b1); [discriminate Hb|].
    cbn [Bool.eqb negb type_traits.conditional].
    rewrite (IH b); [reflexivity | discriminate | exact Hb].
  - rewrite conjunction_v_forallb, disjunction_v_existsb. unfold type_traits.negation.
    induction (map value bs) as [|v vs IH]; [reflexivity|].
    cbn. rewrite negb_andb, IH. reflexivity.
Qed.

Lemma is_same_refl (t : type_traits.cpp_type) : type_traits.is_same t t = true.
Proof.
  destruct t as [b c v r]. unfold type_traits.is_same. cbn.
  rewrite !Bool.eqb_reflx.
  destruct b, r; cbn; rewrite ?Nat.eqb_refl; reflexivity.
Qed.

Lemma uncvref_t_idempotent (t : type_traits.cpp_type) :
  type_traits.uncvref_t (type_traits.uncvref_t t) = type_traits.uncvref_t t.
Proof. reflexivity. Qed.

(** X14: the traits that know the 128-bit integers.  When the compiler
    has them, [is_integral] holds for [__int128_t] and [__uint128_t]
    under every cv-qualification, [is_signed] for the first and
    [is_unsigned] for the second, whatever the standard library's own
    traits say; [make_unsigned_t] maps both to [__uint128_t] with the
    cv-qualifiers of its argument, so its result is unsigned and it is
    idempotent.  A reference to a 128-bit integer, and every type when the
    compiler has no such integers, get the standard library's answer. *)
Theorem int128_traits
    (std_is_integral std_is_signed std_is_unsigned : type_traits.cpp_type -> bool)
    (std_make_unsigned : type_traits.cpp_type -> type_traits.cpp_type)
    (c v : bool) :
  let have := true in
  let is_integral := type_traits.is_integral have std_is_integral in
  let is_signed := type_traits.is_signed have std_is_signed in
  let is_unsigned := type_traits.is_unsigned have std_is_unsigned in
  let make_unsigned_t := type_traits.make_unsigned_t have std_make_unsigned in
  let qualified (b : type_traits.base_type) :=
    {| type_traits.base := b; type_traits.is_const_qualified := c;
       type_traits.is_volatile_qualified := v;
       type_traits.ref := type_traits.not_a_reference |} in
  (is_integral (qualified type_traits.int128_t) = true
   /\ is_integral (qualified type_traits.uint128_t) = true
   /\ is_signed (qualified type_traits.int128_t) = true
   /\ is_unsigned (qualified type_traits.uint128_t) = true)
  /\ (make_unsigned_t (qualified type_traits.int128_t) = qualified type_traits.uint128_t
      /\ make_unsigned_t (qualified type_traits.uint128_t) = qualified type_traits.uint128_t
      /\ is_unsigned (make_unsigned_t (qualified type_traits.int128_t)) = true
      /\ make_unsigned_t (make_unsigned_t (qualified type_traits.int128_t))
         = make_unsigned_t (qualified type_traits.int128_t))
  /\ (forall t : type_traits.cpp_type,
         type_traits.ref t <> type_traits.not_a_reference ->
         is_integral t = std_is_integral t
         /\ is_signed t = std_is_signed t
         /\ is_unsigned t = std_is_unsigned t
         /\ make_unsigned_t t = std_make_unsigned t)
  /\ (forall t : type_traits.cpp_type,
         type_traits.is_integral false std_is_integral t = std_is_integral t
         /\ type_traits.is_signed false std_is_signed t = std_is_signed t
         /\ type_traits.is_unsigned false std_is_unsigned t = std_is_unsigned t
         /\ type_traits.make_unsigned_t false std_make_unsigned t = std_make_unsigned t).
Proof.
  cbv zeta. split; [|split; [|split]].
  - unfold type_traits.is_integral, type_traits.is_signed, type_traits.is_unsigned.
    rewrite !disjunction_v_existsb. cbn. rewrite !orb_true_r. repeat split.
  - unfold type_traits.make_unsigned_t, type_traits.is_unsigned.
    rewrite !disjunction_v_existsb. cbn.
    destruct c, v; vm_compute; repeat split;
      match goal with |- (if ?b then _ else _) = _ => destruct b; reflexivity end.
  - intros [b tc tv r] Hr. cbn in Hr.
    unfold type_traits.is_integral, type_traits.is_signed, type_traits.is_unsigned,
      type_traits.make_unsigned_t.
    rewrite !disjunction_v_existsb.
    destruct r; [contradiction| |];
      cbn; unfold id, type_traits.is_same; cbn;
      rewrite ?andb_false_r, ?orb_false_r; repeat split.
  - intros t.
    unfold type_traits.is_integral, type_traits.is_signed, type_traits.is_unsigned,
      type_traits.make_unsigned_t.
    rewrite !disjunction_v_existsb. cbn. rewrite !orb_false_r. repeat split.
Qed.

(** X15: the constraint of the operators of [complex].  A pair of
    operand types is accepted exactly when both are [complex], or one is
    [complex] and the other is interoperable, up to cv-qualifiers and
    references; so the constraint is symmetric and always needs one
    operand of type [complex].  The in-place constraint further needs a
    left operand that is not const.  Every real-valued interoperable type
    is interoperable, and the two predicates do not see cv-qualifiers or
    references. *)
Theorem complex_op_types (WITH_QUADMATH : bool)
    (is_cpp_arithmetic is_integer is_rational is_cpp_complex : type_traits.cpp_type -> bool)
    (t u : type_traits.cpp_type) :
  let is_rv := complex_traits.is_rv_complex_interoperable WITH_QUADMATH
                 is_cpp_arithmetic is_integer is_rational in
  let is_interoperable := complex_traits.is_complex_interoperable WITH_QUADMATH
                            is_cpp_arithmetic is_integer is_rational is_cpp_complex in
  let op_types := complex_traits.are_complex_op_types WITH_QUADMATH
                    is_cpp_arithmetic is_integer is_rational is_cpp_complex in
  let in_place := complex_traits.are_complex_in_place_op_types WITH_QUADMATH
                    is_cpp_arithmetic is_integer is_rational is_cpp_complex in
  let is_complex (x : type_traits.cpp_type) :=
    type_traits.is_same (type_traits.plain type_traits.complex_class)
      (type_traits.uncvref_t x) in
  op_types t u
  = (is_complex t && is_complex u) || (is_complex t && is_interoperable u)
    || (is_complex u && is_interoperable t)
  /\ op_types t u = op_types u t
  /\ (op_types t u = true -> is_complex t = true \/ is_complex u = true)
  /\ in_place t u = op_types t u && negb (type_traits.is_const (type_traits.unref_t t))
  /\ (is_rv t = true -> is_interoperable t = true)
  /\ is_rv (type_traits.uncvref_t t) = is_rv t
  /\ is_interoperable (type_traits.uncvref_t t) = is_interoperable t
  /\ op_types (type_traits.uncvref_t t) (type_traits.uncvref_t u) = op_types t u.
Proof.
  cbv zeta.
  set (IT := complex_traits.is_complex_interoperable WITH_QUADMATH is_cpp_arithmetic
               is_integer is_rational is_cpp_complex t).
  set (IU := complex_traits.is_complex_interoperable WITH_QUADMATH is_cpp_arithmetic
               is_integer is_rational is_cpp_complex u).
  set (ct := type_traits.is_same (type_traits.plain type_traits.complex_class)
               (type_traits.uncvref_t t)).
  set (cu := type_traits.is_same (type_traits.plain type_traits.complex_class)
               (type_traits.uncvref_t u)).
  assert (Hop : forall a b : type_traits.cpp_type,
             complex_traits.are_complex_op_types WITH_QUADMATH is_cpp_arithmetic
               is_integer is_rational is_cpp_complex a b
             = (type_traits.is_same (type_traits.plain type_traits.complex_class)
                  (type_traits.uncvref_t a)
                && type_traits.is_same (type_traits.plain type_traits.complex_class)
                     (type_traits.uncvref_t b))
               || (type_traits.is_same (type_traits.plain type_traits.complex_class)
                     (type_traits.uncvref_t a)
                   && complex_traits.is_complex_interoperable WITH_QUADMATH
                        is_cpp_arithmetic is_integer is_rational is_cpp_complex b)
               || (type_traits.is_same (type_traits.plain type_traits.complex_class)
                     (type_traits.uncvref_t b)
                   && complex_traits.is_complex_interoperable WITH_QUADMATH
                        is_cpp_arithmetic is_integer is_rational is_cpp_complex a)).
  { intros a b. unfold complex_traits.are_complex_op_types.
    rewrite disjunction_v_existsb, !conjunction_v_forallb.
    cbn [existsb forallb]. unfold id.
    rewrite !andb_true_r, orb_false_r, orb_assoc. reflexivity. }
  split; [apply Hop|]. split; [|split; [|split; [|split; [|split; [|split]]]]].
  - rewrite !Hop. fold IT IU ct cu. destruct ct, cu, IT, IU; reflexivity.
  - rewrite Hop. fold IT IU ct cu. destruct ct, cu; cbn; auto; discriminate.
  - unfold complex_traits.are_complex_in_place_op_types.
    rewrite conjunction_v_forallb. cbn [forallb]. unfold id, type_traits.negation.
    now rewrite andb_true_r.
  - intros Hrv. unfold IT, complex_traits.is_complex_interoperable.
    rewrite disjunction_v_existsb. cbn [existsb app].
    change (complex_traits.is_rv_complex_interoperable WITH_QUADMATH is_cpp_arithmetic
              is_integer is_rational (type_traits.uncvref_t t))
      with (complex_traits.is_rv_complex_interoperable WITH_QUADMATH is_cpp_arithmetic
              is_integer is_rational t).
    unfold id at 1. rewrite Hrv. reflexivity.
  - reflexivity.
  - reflexivity.
  - reflexivity.
Qed.

(** X16: the limits of the 128-bit integers agree with their digits:
    the largest value is [2^digits - 1], the smallest is [0] for the
    unsigned type and [-2^digits] for the signed one.  The signed maximum
    is computed without leaving the range of [__int128_t], which
    [(1 << 127) - 1] would. *)
Theorem int128_limits :
  type_traits.nl_max_uint128 = 2 ^ type_traits.nl_digits_uint128 - 1
  /\ type_traits.nl_min_uint128 = 0
  /\ type_traits.nl_max_int128 = Some (2 ^ type_traits.nl_digits_int128 - 1)
  /\ type_traits.nl_min_int128 = Some (- 2 ^ type_traits.nl_digits_int128)
  /\ type_traits.int128_sub
       (type_traits.int128_shl (type_traits.int128 1) type_traits.nl_digits_int128) 1
     = None.
Proof. repeat split; vm_compute; reflexivity. Qed.

(** ** The laws at concrete values *)

(** C8 at the bounds [1] and [2^56]: the precision 0 is refused, the
    precision 53 is accepted. *)
Lemma precision_check_witness :
  (rejects example_prec_min example_prec_max
     (check_init_prec example_prec_min example_prec_max 0) 0
   /\ snd (set_prec_impl example_prec_min example_prec_max true 0 (complex_of_Z 53 1 0))
      = complex_of_Z 53 1 0)
  /\ check_set_prec example_prec_min example_prec_max 53 = inr 53.
Proof.
  assert (Hout : ~ (example_prec_min <= 0 <= example_prec_max))
    by (unfold example_prec_min; lia).
  assert (Hin : example_prec_min <= 53 <= example_prec_max)
    by (unfold example_prec_min, example_prec_max; lia).
  pose proof (proj1 (precision_check example_prec_min example_prec_max 0) Hout)
    as (Hinit & _ & Hset & _).
  pose proof (proj2 (precision_check example_prec_min example_prec_max 53) Hin)
    as (_ & Hok).
  split; [split|].
  - exact Hinit.
  - exact (proj2 (Hset (complex_of_Z 53 1 0))).
  - exact Hok.
Defined.

(** C1 as stated fails for move assignment: both objects are valid
    before, and the source is still valid afterwards. *)
Lemma move_assign_source_stays_valid :
  is_valid (complex_of_Z 53 1 0) = true
  /\ is_valid (complex_of_Z 53 2 0) = true
  /\ ~ (is_valid (snd (move_assign (complex_of_Z 53 2 0) (complex_of_Z 53 1 0))) = false
        /\ fst (move_assign (complex_of_Z 53 2 0) (complex_of_Z 53 1 0))
           = complex_of_Z 53 1 0).
Proof.
  split; [reflexivity|]. split; [reflexivity|].
  intros [H _]. vm_compute in H. discriminate H.
Qed.

(** C3 as stated fails: a composite of 53 bits set from a [real] of 100
    bits keeps 53 bits in both parts. *)
Lemma set_keeps_target_precision :
  real_deduce_precision {| m_mpfr := mpfr_of_Z 100 5 |} = 100
  /\ mpfr_get_prec
       (mpc_imagref (m_mpc (set {| m_mpfr := mpfr_of_Z 100 5 |} (complex_of_Z 53 1 1)))) = 53
  /\ ~ (get_prec (set {| m_mpfr := mpfr_of_Z 100 5 |} (complex_of_Z 53 1 1))
        = Some (real_deduce_precision {| m_mpfr := mpfr_of_Z 100 5 |})).
Proof.
  split; [reflexivity|]. split; [reflexivity|].
  intros H. vm_compute in H. discriminate H.
Qed.

(** C4 at the composite [(1, 1)] of 53 bits, the [int] 5 and the
    [std::complex<double>] (1.5, -0.0). *)
Lemma generic_assignment_witness :
  (exists t' : complex,
      assign example_prec_min example_prec_max (Int 5) (complex_of_Z 53 1 1) = (inr tt, t')
      /\ real_part t' = real_assign (Int 5) (real_part (complex_of_Z 53 1 1))
      /\ mpfr_get_prec (mpc_imagref (m_mpc t')) = real_get_prec (real_part t')
      /\ mpfr_zero_p (mpc_imagref (m_mpc t')) <> 0
      /\ _mpfr_sign (mpc_imagref (m_mpc t')) = 1)
  /\ (exists t' : complex,
         assign example_prec_min example_prec_max
           (StdComplex (dbl_fin false 3 (-1)) (dbl_zero true)) (complex_of_Z 64 1 1)
         = (inr tt, t')
         /\ mpfr_get_prec (mpc_realref (m_mpc t')) = 53
         /\ mpfr_get_prec (mpc_imagref (m_mpc t')) = 53).
Proof.
  split.
  - exact (proj1 (proj2 (generic_assignment example_prec_min example_prec_max
                           (complex_of_Z 53 1 1) cpp_int int_rv (Int 5)
                           std_complex_double std_complex_cv
                           (StdComplex (dbl_fin false 3 (-1)) (dbl_zero true))))
             eq_refl).
  - destruct (proj2 (proj2 (generic_assignment example_prec_min example_prec_max
                              (complex_of_Z 64 1 1) cpp_int int_rv (Int 5)
                              std_complex_double std_complex_cv
                              (StdComplex (dbl_fin false 3 (-1)) (dbl_zero true))))
                eq_refl) as (t' & Ht & _ & _ & Hre & Him).
    exists t'. split; [exact Ht|]. split; [exact Hre | exact Him].
Defined.

(** C5 as stated fails: the move constructor from an [mpc_t] hands out a
    composite whose parts have 10 and 20 bits, and a write through a view
    on the real part leaves 100 bits beside 53; [get_prec] has no answer
    for either. *)
Lemma precisions_can_differ :
  (~ same_prec (complex_mpc_move {| re := mpfr_of_Z 10 1; im := mpfr_of_Z 20 0 |})
   /\ get_prec (complex_mpc_move {| re := mpfr_of_Z 10 1; im := mpfr_of_Z 20 0 |}) = None)
  /\ (~ same_prec (fst (re_ref_scope (real_assign {| m_mpfr := mpfr_of_Z 100 5 |})
                          (complex_of_Z 53 1 0)))
      /\ get_prec (fst (re_ref_scope (real_assign {| m_mpfr := mpfr_of_Z 100 5 |})
                          (complex_of_Z 53 1 0))) = None).
Proof.
  repeat split; try reflexivity; intros H; vm_compute in H; discriminate H.
Qed.

(** C5, amended, at the composite built from the [int] 5, moved, set
    from a [double] and rounded to 24 bits. *)
Lemma invariant_I1_witness :
  exists c : complex,
    prec_round_impl example_prec_min example_prec_max true 24
      (set (dbl_fin false 3 (-1)) (fst (complex_move (complex_of_Z 32 5 0))))
    = (inr tt, c)
    /\ same_prec c
    /\ get_prec c = Some 24.
Proof.
  eexists. split; [reflexivity|].
  apply (invariant_I1 example_prec_min example_prec_max).
  apply (produced_prec_round example_prec_min example_prec_max true 24
           (set (dbl_fin false 3 (-1)) (fst (complex_move (complex_of_Z 32 5 0))))
           _ (inr tt)); [|reflexivity].
  apply produced_set, produced_move.
  apply (produced_generic example_prec_min example_prec_max cpp_int int_interoperable (Int 5)).
  reflexivity.
Defined.

(** C6 as stated fails with an explicit precision: the [int] 5 needs
    three bits, and the composite built from it at 2 bits has the real
    part 4. *)
Lemma explicit_precision_rounds :
  exists c : complex,
    complex_generic_prec example_prec_min example_prec_max (Int 5) (ComplexPrec 2) = inr c
    /\ get_prec c = Some 2
    /\ real_eq {| m_mpfr := re (m_mpc c) |} (Int 4) = true
    /\ real_eq {| m_mpfr := re (m_mpc c) |} (Int 5) = false
    /\ eq_complex_l c (Int 5) = false.
Proof.
  eexists. split; [vm_compute; reflexivity|]. repeat split.
Qed.

(** C6, amended, at the [int] 5: with the explicit precision 2, which
    rounds it, and with its natural precision of 32 bits, which holds it
    exactly; and at the [double] 1.5. *)
Lemma real_construction_witness :
  (exists c : complex,
      complex_generic_prec example_prec_min example_prec_max (Int 5) (ComplexPrec 2) = inr c
      /\ _mpfr_exp (im (m_mpc c)) = MPFR_EXP_ZERO
      /\ get_prec c = Some 2)
  /\ (exists c : complex,
         complex_generic example_prec_min example_prec_max (Int 5) = inr c
         /\ {| m_mpfr := re (m_mpc c) |} = real_ctor (Int 5)
         /\ _mpfr_exp (im (m_mpc c)) = MPFR_EXP_ZERO
         /\ get_prec c = Some 32
         /\ eq_complex_l c (Int 5) = true)
  /\ (exists c : complex,
         complex_generic example_prec_min example_prec_max (dbl_fin false 3 (-1)) = inr c
         /\ get_prec c = Some 53
         /\ eq_complex_l c (dbl_fin false 3 (-1)) = true).
Proof.
  pose proof (real_construction example_prec_min example_prec_max)
    as (Hprec & Hded & Hint & Hdbl & _).
  split; [|split].
  - destruct (Hprec cpp_int int_rv (Int 5) (ComplexPrec 2) eq_refl)
      as (c & Hc & _ & _ & _ & _ & Hz & _ & Hp & _).
    exists c. split; [exact Hc|]. split; [exact Hz | exact Hp].
  - destruct (proj1 (Hint 5 ltac:(lia)) eq_refl) as (c & Hc & Hp & _ & He).
    destruct (Hded cpp_int int_rv (Int 5) eq_refl)
      as (c' & Hc' & _ & Hre & _ & _ & Hz & _ & _ & _).
    assert (Hcc : inr c' = (inr c : result complex)) by (rewrite <- Hc'; exact Hc).
    injection Hcc as ->.
    exists c. split; [exact Hc|]. split; [exact Hre|]. split; [exact Hz|].
    split; [exact Hp | exact He].
  - destruct (proj1 (Hdbl (dbl_fin false 3 (-1)) ltac:(cbn; lia)) eq_refl)
      as (c & Hc & Hp & _ & He).
    exists c. split; [exact Hc|]. split; [exact Hp | exact He].
Defined.

(** C7 at the [int] 5 and the [double] 1.5: 32 and 53 bits give 53. *)
Lemma deduction_law_witness :
  exists c : complex,
    complex_re_im example_prec_min example_prec_max (Int 5) (dbl_fin false 3 (-1)) = inr c
    /\ get_prec c = Some 53.
Proof.
  exact (proj1 (deduction_law example_prec_min example_prec_max
                  cpp_int cpp_double int_rv double_rv (Int 5) (dbl_fin false 3 (-1))
                  eq_refl)).
Defined.

(** The composite (1.0, 0.0) of 53 bits compares equal to the [double]
    1.0 and to the [int] 1, from either side. *)
Example scenario_equal_one :
  exists c : complex,
    complex_re_im_prec example_prec_min example_prec_max
      (dbl_fin false 1 0) (dbl_zero false) (ComplexPrec 53) = inr c
    /\ eq_complex_l c (dbl_fin false 1 0) = true
    /\ eq_complex_l c (Int 1) = true
    /\ eq_complex_r (Int 1) c = true
    /\ neq_complex_l c (Int 2) = true.
Proof.
  eexists. split; [vm_compute; reflexivity|]. repeat split.
Qed.

(** The composite (1.0, 1.0) assigned the [int] 5: the imaginary part
    becomes +0, the real part 5, and the precision the 32 bits of [int]. *)
Example scenario_assign_int :
  exists c t : complex,
    complex_re_im example_prec_min example_prec_max
      (dbl_fin false 1 0) (dbl_fin false 1 0) = inr c
    /\ get_prec c = Some 53
    /\ assign example_prec_min example_prec_max (Int 5) c = (inr tt, t)
    /\ t = complex_of_Z 32 5 0
    /\ get_prec t = Some 32
    /\ eq_complex_l t (Int 5) = true.
Proof.
  do 2 eexists. split; [vm_compute; reflexivity|].
  split; [reflexivity|]. split; [vm_compute; reflexivity|]. repeat split.
Qed.

(** X4 at the [int] -7. *)
Lemma construct_int_equal_witness :
  exists c : complex,
    complex_generic example_prec_min example_prec_max (Int (-7)) = inr c
    /\ eq_complex_l c (Int (-7)) = true
    /\ eq_complex_r (Int (-7)) c = true.
Proof.
  apply (construct_int_equal example_prec_min example_prec_max (-7) eq_refl).
  lia.
Defined.

(** X2 at the [int] 5, the [double] 1.5 and 24 bits. *)
Lemma explicit_precision_law_witness :
  complex_re_im_prec example_prec_min example_prec_max
    (Int 5) (dbl_fin false 3 (-1)) (ComplexPrec 24)
  = inr (built_from_parts (Int 5) (dbl_fin false 3 (-1)) 24)
  /\ get_prec (built_from_parts (Int 5) (dbl_fin false 3 (-1)) 24) = Some 24
  /\ is_valid (built_from_parts (Int 5) (dbl_fin false 3 (-1)) 24) = true.
Proof.
  pose proof (explicit_precision_law example_prec_min example_prec_max
                cpp_int cpp_double _ _ (Int 5) (dbl_fin false 3 (-1)) (ComplexPrec 24))
    as (Hprec & _ & Hok & _).
  pose proof (Hok cpp_int cpp_double int_rv double_rv (Int 5) (dbl_fin false 3 (-1)) eq_refl)
    as Hc.
  split; [exact Hc|].
  destruct (Hprec _ Hc) as (_ & Hp & Hv & _). split; [exact Hp | exact Hv].
Defined.

(** X3 at the [std::complex<double>] (1.5, -0.0). *)
Lemma construction_complex_valued_witness :
  exists c : complex,
    complex_generic example_prec_min example_prec_max
      (StdComplex (dbl_fin false 3 (-1)) (dbl_zero true)) = inr c
    /\ get_prec c = Some 53
    /\ is_valid c = true.
Proof.
  destruct (construction_complex_valued example_prec_min example_prec_max
              std_complex_double std_complex_cv
              (StdComplex (dbl_fin false 3 (-1)) (dbl_zero true)) eq_refl)
    as (c & Hc & _ & _ & Hp & Hv & _).
  exists c. split; [exact Hc|]. split; [exact Hp | exact Hv].
Defined.

(** X5 at the [std::complex<double>] (1.5, -0.0). *)
Lemma std_complex_round_trip_witness :
  exists c : complex,
    complex_generic example_prec_min example_prec_max
      (StdComplex (dbl_fin false 3 (-1)) (dbl_zero true)) = inr c
    /\ eq_complex_l c (StdComplex (dbl_fin false 3 (-1)) (dbl_zero true)) = true.
Proof.
  destruct (std_complex_round_trip example_prec_min example_prec_max
              (StdComplex (dbl_fin false 3 (-1)) (dbl_zero true)) eq_refl)
    as (c & Hc & _ & Heq & _).
  exists c. split; [exact Hc|].
  exact (proj1 (Heq eq_refl I)).
Defined.

(** X6 at the composite of 53 bits (1, 0) and the precision 24. *)
Lemma precision_change_witness :
  fst (set_prec_impl example_prec_min example_prec_max true 24 (complex_of_Z 53 1 0)) = inr tt
  /\ get_prec (snd (set_prec_impl example_prec_min example_prec_max true 24
                      (complex_of_Z 53 1 0))) = Some 24
  /\ get_prec (snd (prec_round_impl example_prec_min example_prec_max true 24
                      (complex_of_Z 53 1 0))) = Some 24.
Proof.
  pose proof (precision_change example_prec_min example_prec_max 24 (complex_of_Z 53 1 0))
    as (_ & Hok & Hset & Hround).
  split; [exact (proj1 (Hok eq_refl))|]. split.
  - exact (proj1 (Hset true _ eq_refl)).
  - exact (Hround true _ eq_refl).
Defined.

(** X7 at the composite of 53 bits (1, 1): it stays valid through an
    assignment and a setter, moving from it leaves it invalid, and a
    move assignment from what is left makes the valid target (2, 0)
    invalid. *)
Lemma validity_kept_witness :
  is_valid (snd (assign example_prec_min example_prec_max (Int 5) (complex_of_Z 53 1 1))) = true
  /\ is_valid (set (dbl_fin false 3 (-1)) (complex_of_Z 53 1 1)) = true
  /\ is_valid (snd (complex_move (complex_of_Z 53 1 1))) = false
  /\ is_valid (complex_of_Z 53 2 0) = true
  /\ is_valid (fst (move_assign (complex_of_Z 53 2 0)
                      (snd (complex_move (complex_of_Z 53 1 1))))) = false.
Proof.
  pose proof (proj1 (proj2 (proj2 (proj2 (proj2
                (validity_kept example_prec_min example_prec_max)))))
                (complex_of_Z 53 1 1) eq_refl) as (Hmut & _ & _ & Hmoved & Hassign).
  split; [exact (proj1 (Hmut cpp_int int_interoperable (Int 5)))|].
  split; [exact (proj2 (Hmut cpp_double double_interoperable (dbl_fin false 3 (-1))))|].
  split; [exact Hmoved|]. split; [reflexivity|].
  exact (proj1 (Hassign (complex_of_Z 53 2 0))).
Defined.

(** X8 at the composite of 53 bits (1, 1), the [int] 5 and the
    [std::complex<double>] (1.5, -0.0). *)
Lemma assignment_is_construction_witness :
  (exists c t' : complex,
      complex_generic example_prec_min example_prec_max (Int 5) = inr c
      /\ assign example_prec_min example_prec_max (Int 5) (complex_of_Z 53 1 1) = (inr tt, t')
      /\ real_part t' = real_part c
      /\ get_prec t' = Some 32)
  /\ (exists c : complex,
         complex_generic example_prec_min example_prec_max
           (StdComplex (dbl_fin false 3 (-1)) (dbl_zero true)) = inr c
         /\ assign example_prec_min example_prec_max
              (StdComplex (dbl_fin false 3 (-1)) (dbl_zero true)) (complex_of_Z 53 1 1)
            = (inr tt, c)).
Proof.
  pose proof (assignment_is_construction example_prec_min example_prec_max
                (complex_of_Z 53 1 1)) as (Hrv & Hcv).
  split.
  - destruct (Hrv cpp_int int_rv (Int 5) eq_refl) as (c & t' & Hc & Ht & Hre & _ & Hp & _).
    exists c, t'. split; [exact Hc|]. split; [exact Ht|]. split; [exact Hre | exact Hp].
  - exact (Hcv std_complex_double std_complex_cv
             (StdComplex (dbl_fin false 3 (-1)) (dbl_zero true)) eq_refl).
Defined.

(** X9 at the composite of 53 bits (1, 1) and the [int] 5. *)
Lemma set_idempotent_witness :
  set (Int 5) (snd (assign example_prec_min example_prec_max (Int 5) (complex_of_Z 53 1 1)))
  = snd (assign example_prec_min example_prec_max (Int 5) (complex_of_Z 53 1 1)).
Proof.
  exact (proj2 (set_idempotent example_prec_min example_prec_max cpp_int int_interoperable
                  (Int 5) (complex_of_Z 53 1 1)) _ eq_refl).
Defined.

(** X10 at the composite of 53 bits (1, 1) and the [int] 5. *)
Lemma set_int_equal_witness :
  eq_complex_l (set (Int 5) (complex_of_Z 53 1 1)) (Int 5) = true
  /\ eq_complex_r (Int 5) (set (Int 5) (complex_of_Z 53 1 1)) = true.
Proof.
  apply (set_int_equal 5 (complex_of_Z 53 1 1)).
  - unfold complex_of_Z, mpfr_of_Z. cbn. lia.
  - lia.
Defined.

(** X17 at the composite of 53 bits (1, 1), the [int] 5 and the
    [std::complex<double>] (1.5, -0.0). *)
Lemma assign_then_equal_witness :
  (exists t' : complex,
      assign example_prec_min example_prec_max (Int 5) (complex_of_Z 53 1 1) = (inr tt, t')
      /\ eq_complex_l t' (Int 5) = true
      /\ get_prec t' = Some 32)
  /\ (exists t' : complex,
         assign example_prec_min example_prec_max
           (StdComplex (dbl_fin false 3 (-1)) (dbl_zero true)) (complex_of_Z 53 1 1)
         = (inr tt, t')
         /\ eq_complex_l t' (StdComplex (dbl_fin false 3 (-1)) (dbl_zero true)) = true
         /\ get_prec t' = Some 53).
Proof.
  pose proof (assign_then_equal example_prec_min example_prec_max (complex_of_Z 53 1 1))
    as (Hint & Hcomplex).
  split.
  - apply (Hint 5 eq_refl). lia.
  - exact (Hcomplex (StdComplex (dbl_fin false 3 (-1)) (dbl_zero true)) eq_refl eq_refl I).
Defined.

(** X13 at the values false, true, false. *)
Lemma conjunction_disjunction_witness :
  type_traits.conjunction id [true; false; true; false] = type_traits.argument false
  /\ type_traits.disjunction id [false; true; false] = type_traits.argument true
  /\ type_traits.conjunction id [true; true] = type_traits.argument true
  /\ type_traits.disjunction id [false; false] = type_traits.argument false.
Proof.
  pose proof (conjunction_disjunction bool id [true; false; true; false])
    as (_ & _ & Hc & _).
  pose proof (conjunction_disjunction bool id [false; true; false])
    as (_ & _ & _ & Hd & _).
  pose proof (conjunction_disjunction bool id [true; true])
    as (_ & _ & _ & _ & Hcl & _).
  pose proof (conjunction_disjunction bool id [false; false])
    as (_ & _ & _ & _ & _ & Hdl & _).
  split; [exact (Hc false eq_refl)|]. split; [exact (Hd true eq_refl)|].
  split.
  - exact (Hcl true ltac:(discriminate) eq_refl).
  - exact (Hdl false ltac:(discriminate) eq_refl).
Defined.

(** X14 at [const __int128_t &], with a standard library that does not
    know the 128-bit integers. *)
Lemma int128_traits_witness :
  type_traits.is_integral true (fun _ => false)
    {| type_traits.base := type_traits.int128_t; type_traits.is_const_qualified := true;
       type_traits.is_volatile_qualified := false;
       type_traits.ref := type_traits.lvalue_reference |} = false
  /\ type_traits.is_integral true (fun _ => false)
       {| type_traits.base := type_traits.int128_t; type_traits.is_const_qualified := true;
          type_traits.is_volatile_qualified := false;
          type_traits.ref := type_traits.not_a_reference |} = true.
Proof.
  pose proof (int128_traits (fun _ => false) (fun _ => false) (fun _ => false)
                (fun t => t) true false) as (Hint & _ & Href & _).
  split.
  - exact (proj1 (Href {| type_traits.base := type_traits.int128_t;
                          type_traits.is_const_qualified := true;
                          type_traits.is_volatile_qualified := false;
                          type_traits.ref := type_traits.lvalue_reference |}
                    ltac:(discriminate))).
  - exact (proj1 Hint).
Defined.

(** X15 at [complex] against [const complex &], with no other
    interoperable type. *)
Lemma complex_op_types_witness :
  complex_traits.are_complex_op_types false (fun _ => false) (fun _ => false)
    (fun _ => false) (fun _ => false)
    (type_traits.plain type_traits.complex_class)
    {| type_traits.base := type_traits.complex_class; type_traits.is_const_qualified := true;
       type_traits.is_volatile_qualified := false;
       type_traits.ref := type_traits.lvalue_reference |} = true
  /\ (type_traits.is_same (type_traits.plain type_traits.complex_class)
        (type_traits.uncvref_t (type_traits.plain type_traits.complex_class)) = true
      \/ type_traits.is_same (type_traits.plain type_traits.complex_class)
           (type_traits.uncvref_t
              {| type_traits.base := type_traits.complex_class;
                 type_traits.is_const_qualified := true;
                 type_traits.is_volatile_qualified := false;
                 type_traits.ref := type_traits.lvalue_reference |}) = true).
Proof.
  pose proof (complex_op_types false (fun _ => false) (fun _ => false) (fun _ => false)
                (fun _ => false)
                (type_traits.plain type_traits.complex_class)
                {| type_traits.base := type_traits.complex_class;
                   type_traits.is_const_qualified := true;
                   type_traits.is_volatile_qualified := false;
                   type_traits.ref := type_traits.lvalue_reference |})
    as (_ & _ & Hneeds & _).
  split; [reflexivity | exact (Hneeds eq_refl)].
Defined.
